(** * EduPay: authentication middleware and auth routes

    A shallow embedding of [middleware/auth.js] (rate limiter, login-attempt
    tracker, JWT gates), of the register / login / refresh / logout /
    change-password handlers of [routes/auth.routes.js] and of the string
    sanitizer and the email pattern of [middleware/validator.js], with the
    properties of the security core.

    Conventions.
    - JavaScript numbers that hold millisecond timestamps and counters are
      integers of [Z]; [Date.now()] is an explicit argument of every
      operation that reads the clock.
    - The module-level [Map]s are [gmap]s that are passed in and returned.
    - A JavaScript object literal with optional properties is a record whose
      optional properties have an [option] type ([None] is [undefined]).
    - A handler run observes one clock reading; [isAccountLocked], which
      reads the clock twice, also has a form with two readings.
    - The data store always answers: the [catch] branches that turn a store
      exception into a 500 response are outside the model, and so is the
      body validation in front of the login handler.
    - [jsonwebtoken] and [bcryptjs] are third-party packages; they are
      interfaces ([JwtCodec], [Bcrypt]) with the checks of [jwt.verify]
      written out over symbolic tokens. *)

From Stdlib Require Import ZArith Lia List Ascii String.
From stdpp Require Import base option gmap strings pretty list fin_maps.
Import ListNotations.
Open Scope Z_scope.

#[local] Set Warnings "-register-all".

(** ** JavaScript primitives used by the code *)
Module Js.

(** [Math.ceil(a / b)] for an integer [a] and a positive integer [b]. *)
Definition ceil_div (a b : Z) : Z := - ((- a) / b).

(** Truthiness of a string-or-undefined value. *)
Definition truthy_str (v : option string) : bool :=
  match v with
  | Some s => negb (String.eqb s "")
  | None => false
  end.

(** Truthiness of a number-or-null value: [null] and [0] are falsy. *)
Definition truthy_num (v : option Z) : bool :=
  match v with
  | Some n => negb (n =? 0)
  | None => false
  end.

(** [a || b] on string-or-undefined values. *)
Definition or_str (a b : option string) : option string :=
  if truthy_str a then a else b.

(** [s.startsWith(p)] *)
Fixpoint startsWith (p s : string) : bool :=
  match p, s with
  | EmptyString, _ => true
  | String a p', String b s' => Ascii.eqb a b && startsWith p' s'
  | String _ _, EmptyString => false
  end.

(** [s.split(' ')]: the pieces between single spaces; the list always has a
    first piece. *)
Fixpoint split_space (s : string) : list string :=
  match s with
  | EmptyString => [EmptyString]
  | String c r =>
      if Ascii.eqb c " "%char then EmptyString :: split_space r
      else match split_space r with
           | h :: t => String c h :: t
           | [] => [String c EmptyString]
           end
  end.

(** A JSON value as passed to [res.json]; [JUndefined] is a property whose
    value is [undefined]. *)
Inductive Json :=
| JUndefined
| JNull
| JBool (b : bool)
| JNum (n : Z)
| JStr (s : string)
| JObj (fields : list (string * Json)).

(** [v === undefined ? undefined : v] lifted from options. *)
Definition num_or_undefined (v : option Z) : Json :=
  match v with Some n => JNum n | None => JUndefined end.
Definition str_or_undefined (v : option string) : Json :=
  match v with Some s => JStr s | None => JUndefined end.

(** Property lookup in an object literal. *)
Fixpoint prop (k : string) (o : list (string * Json)) : option Json :=
  match o with
  | [] => None
  | (k', v) :: o' => if String.eqb k k' then Some v else prop k o'
  end.

End Js.
Export Js.

(** ** [config.js] *)
Module Cfg.

Record Jwt := {
  secret : string;
  refreshSecret : string;
  accessTokenExpiry : Z;   (* seconds; '15m' *)
  refreshTokenExpiry : Z;  (* seconds; '7d' *)
  issuer : string;
  audience : string
}.

Record RateLimit := {
  windowMs : Z;
  maxRequests : Z;
  authWindowMs : Z;
  authMaxRequests : Z
}.

Record Security := {
  maxLoginAttempts : Z;
  lockoutDuration : Z
}.

Record Features := {
  enableRateLimiting : bool
}.

Record t := {
  jwt : Jwt;
  rateLimit : RateLimit;
  security : Security;
  features : Features
}.

End Cfg.

(** The configuration object of the repository, with the defaults taken when
    the JWT environment variables are unset. *)
Definition config : Cfg.t := {|
  Cfg.jwt := {|
    Cfg.secret := "edupay-super-secret-key-2024-change-in-production";
    Cfg.refreshSecret := "edupay-refresh-secret-key-2024-change-in-production";
    Cfg.accessTokenExpiry := 15 * 60;
    Cfg.refreshTokenExpiry := 7 * 24 * 60 * 60;
    Cfg.issuer := "EduPay Platform";
    Cfg.audience := "EduPay Users"
  |};
  Cfg.rateLimit := {|
    Cfg.windowMs := 15 * 60 * 1000;
    Cfg.maxRequests := 100;
    Cfg.authWindowMs := 60 * 60 * 1000;
    Cfg.authMaxRequests := 5
  |};
  Cfg.security := {|
    Cfg.maxLoginAttempts := 5;
    Cfg.lockoutDuration := 15 * 60 * 1000
  |};
  Cfg.features := {| Cfg.enableRateLimiting := true |}
|}.

(** ** HTTP plumbing *)

(** The decoded payload of a token: the claims written by
    [generateAccessToken] / [generateRefreshToken] plus the registered claims
    added by [jwt.sign]. *)
Record Payload := {
  p_id : Z;
  p_email : option string;
  p_name : option string;
  p_role : option string;
  p_type : option string;
  p_iat : Z;
  p_exp : option Z;
  p_iss : option string;
  p_aud : option string
}.

(** The parts of an Express request that the middleware reads or writes. *)
Record Request := {
  ip : option string;
  remoteAddress : option string;         (* req.connection.remoteAddress *)
  authorization : option string;         (* req.headers.authorization *)
  user : option Payload;                 (* req.user *)
  token : option string                  (* req.token *)
}.

(** What [res.set(..)], [res.status(..)] and [res.json(..)] produced. *)
Record Response := {
  status : Z;
  headers : list (string * Json);
  body : list (string * Json)
}.

(** A middleware either calls [next()] with the request it may have
    decorated, or ends the request with a response. *)
Inductive Mw :=
| MwNext (req : Request)
| MwRespond (res : Response).

Definition code_of (res : Response) : option Json := prop "code" (body res).

(** ** Rate limiter *)

Record RateLimitRecord := { count : Z; resetTime : Z }.

(** [rateLimitStore]: one module-level map, keyed by [req.ip ||
    req.connection.remoteAddress] (which may be [undefined]). *)
Abbreviation RateLimitStore := (gmap (option string) RateLimitRecord).

Definition client_key (req : Request) : option string :=
  or_str (ip req) (remoteAddress req).

Definition rate_limit_exceeded (retryAfter : Z) : Response := {|
  status := 429;
  headers := [("Retry-After"%string, JNum retryAfter)];
  body := [("success"%string, JBool false);
           ("message"%string, JStr "Too many requests, please try again later");
           ("code"%string, JStr "RATE_LIMIT_EXCEEDED");
           ("retryAfter"%string, JNum retryAfter)]
|}.

(** The middleware returned by [rateLimit(maxRequests, windowMs)], run on a
    request at clock reading [now] against the shared store. *)
Definition rateLimit (cfg : Cfg.t) (maxRequests windowMs : Z)
    (req : Request) (now : Z) (store : RateLimitStore) : RateLimitStore * Mw :=
  if negb (Cfg.enableRateLimiting (Cfg.features cfg)) then (store, MwNext req)
  else
    let key := client_key req in
    match store !! key with
    | None =>
        (<[key := {| count := 1; resetTime := now + windowMs |}]> store, MwNext req)
    | Some record =>
        if now >? resetTime record then
          (<[key := {| count := 1; resetTime := now + windowMs |}]> store, MwNext req)
        else if count record >=? maxRequests then
          let retryAfter := ceil_div (resetTime record - now) 1000 in
          (store, MwRespond (rate_limit_exceeded retryAfter))
        else
          (<[key := {| count := count record + 1; resetTime := resetTime record |}]> store,
           MwNext req)
    end.

(** ** Login attempt tracker *)

Record LoginAttemptRecord := { attempts : Z; lockUntil : option Z }.

Abbreviation LoginAttempts := (gmap string LoginAttemptRecord).

(** The object literals returned by [trackLoginAttempt] and
    [isAccountLocked]. *)
Record LockStatus := {
  locked : bool;
  remainingSeconds : option Z;
  message : option string;
  attemptsRemaining : option Z
}.

Definition not_locked : LockStatus :=
  {| locked := false; remainingSeconds := None; message := None;
     attemptsRemaining := None |}.

Definition unlocked_with (remaining : Z) : LockStatus :=
  {| locked := false; remainingSeconds := None; message := None;
     attemptsRemaining := Some remaining |}.

Definition temporarily_locked (remaining : Z) : LockStatus :=
  {| locked := true;
     remainingSeconds := Some remaining;
     message := Some ("Account temporarily locked. Try again in "
                      +:+ pretty (ceil_div remaining 60) +:+ " minutes.");
     attemptsRemaining := None |}.

Definition too_many_attempts (cfg : Cfg.t) : LockStatus :=
  let duration := Cfg.lockoutDuration (Cfg.security cfg) in
  {| locked := true;
     remainingSeconds := Some (ceil_div duration 1000);
     message := Some ("Too many failed attempts. Account locked for "
                      +:+ pretty (ceil_div duration 60000) +:+ " minutes.");
     attemptsRemaining := None |}.

(** [record.lockUntil && now < record.lockUntil] *)
Definition lock_in_force (record : LoginAttemptRecord) (now : Z) : bool :=
  truthy_num (lockUntil record)
  && match lockUntil record with Some t => now <? t | None => false end.

Definition fresh_record : LoginAttemptRecord :=
  {| attempts := 0; lockUntil := None |}.

Definition trackLoginAttempt (cfg : Cfg.t) (email : string) (success : bool)
    (now : Z) (loginAttempts : LoginAttempts) : LoginAttempts * LockStatus :=
  let loginAttempts :=
    match loginAttempts !! email with
    | None => <[email := fresh_record]> loginAttempts
    | Some _ => loginAttempts
    end in
  let record := default fresh_record (loginAttempts !! email) in
  if success then
    (delete email loginAttempts, not_locked)
  else if lock_in_force record now then
    let remaining :=
      ceil_div (default 0 (lockUntil record) - now) 1000 in
    (loginAttempts, temporarily_locked remaining)
  else
    let n := attempts record + 1 in
    if n >=? Cfg.maxLoginAttempts (Cfg.security cfg) then
      (<[email := {| attempts := 0;
                     lockUntil := Some (now + Cfg.lockoutDuration (Cfg.security cfg)) |}]>
         loginAttempts,
       too_many_attempts cfg)
    else
      (<[email := {| attempts := n; lockUntil := lockUntil record |}]> loginAttempts,
       unlocked_with (Cfg.maxLoginAttempts (Cfg.security cfg) - n)).

(** [isAccountLocked] reads the clock twice: [now1] decides whether the lock
    is still in force, [now2] is the reading used for [remainingSeconds]. *)
Definition isAccountLocked_at (email : string) (now1 now2 : Z)
    (loginAttempts : LoginAttempts) : LoginAttempts * LockStatus :=
  match loginAttempts !! email with
  | None => (loginAttempts, not_locked)
  | Some record =>
      if negb (truthy_num (lockUntil record)) then (loginAttempts, not_locked)
      else
        let until := default 0 (lockUntil record) in
        if now1 <? until then
          (loginAttempts, temporarily_locked (ceil_div (until - now2) 1000))
        else
          (delete email loginAttempts, not_locked)
  end.

(** Both readings fall in the same millisecond. *)
Definition isAccountLocked (email : string) (now : Z)
    (loginAttempts : LoginAttempts) : LoginAttempts * LockStatus :=
  isAccountLocked_at email now now loginAttempts.

(** The body of the [setInterval] callback that reclaims expired entries,
    one loop per map. *)
Definition cleanup_rateLimitStore (now : Z) (store : RateLimitStore) : RateLimitStore :=
  filter (λ kr, ¬ (now > resetTime kr.2)) store.

Definition cleanup_loginAttempts (now : Z) (loginAttempts : LoginAttempts) : LoginAttempts :=
  filter (λ kr, ¬ (truthy_num (lockUntil kr.2) = true
                   ∧ now > default 0 (lockUntil kr.2))) loginAttempts.

(** ** JSON Web Tokens

    [jsonwebtoken] is a third-party package.  Its tokens are modelled
    symbolically: a token is a payload together with the key under which its
    signature verifies, and the wire format (base64url over JSON and an HMAC)
    is an interface. *)

Record SignedJwt := { jwt_payload : Payload; jwt_key : string }.

Class JwtCodec := {
  jwt_encode : SignedJwt → string;
  jwt_decode : string → option SignedJwt
}.

(** [bcryptjs]: [bcrypt.compare(password, hash)]. *)
Class Bcrypt := {
  bcrypt_compare : string → string → bool
}.

Inductive JwtError :=
| TokenExpiredError
| JsonWebTokenError.

(** [options] of [jwt.verify]: the issuer and audience to insist on. *)
Record VerifyOptions := { opt_issuer : string; opt_audience : string }.

(** [jwt.verify(token, secret, options)] at clock reading [now], in the
    order the package checks: a token must be provided and well formed, the
    signature must verify under [secret], [exp] must lie in the future, and
    then the audience and the issuer must match when they are asked for.
    Tokens of this application carry no [nbf], which is left out. *)
Definition jwt_verify `{JwtCodec} (token : option string) (secret : string)
    (options : option VerifyOptions) (now : Z) : Payload + JwtError :=
  if negb (truthy_str token) then inr JsonWebTokenError
  else
    match jwt_decode (default EmptyString token) with
    | None => inr JsonWebTokenError
    | Some jwt =>
        let payload := jwt_payload jwt in
        if negb (String.eqb (jwt_key jwt) secret) then inr JsonWebTokenError
        else if match p_exp payload with
                | Some exp => now / 1000 >=? exp
                | None => false
                end then inr TokenExpiredError
        else
          match options with
          | None => inl payload
          | Some o =>
              if negb (bool_decide (p_aud payload = Some (opt_audience o)))
              then inr JsonWebTokenError
              else if negb (bool_decide (p_iss payload = Some (opt_issuer o)))
              then inr JsonWebTokenError
              else inl payload
          end
    end.

(** [jwt.sign(payload, secret, { expiresIn, issuer, audience })] *)
Definition jwt_sign `{JwtCodec} (payload : Payload) (secret : string) : string :=
  jwt_encode {| jwt_payload := payload; jwt_key := secret |}.

(** ** The data store, as the auth routes use it *)

Record UserRow := {
  u_id : Z;
  u_email : string;
  u_password : string;
  u_name : string;
  u_role : string;
  u_department : option string
}.

Record RefreshTokenRow := {
  rt_user_id : Z;
  rt_token : string;
  rt_expires_at : Z   (* seconds since the epoch *)
}.

Record ActivityRow := {
  al_user_id : Z;
  al_action : string;
  al_entity_type : string;
  al_entity_id : Z;
  al_details : string
}.

Record Db := {
  users : list UserRow;
  refresh_tokens : list RefreshTokenRow;
  activity_log : list ActivityRow
}.

(** [datetime('now')], in seconds. *)
Definition datetime_now (now : Z) : Z := now / 1000.

(** [SELECT * FROM users WHERE email = ?] *)
Definition user_by_email (db : Db) (email : string) : option UserRow :=
  find (λ u, String.eqb (u_email u) email) (users db).

(** [SELECT id, email, name, role FROM users WHERE id = ?] *)
Definition user_by_id (db : Db) (id : Z) : option UserRow :=
  find (λ u, u_id u =? id) (users db).

(** [SELECT * FROM refresh_tokens WHERE user_id = ? AND token = ? AND
    expires_at > datetime('now')] *)
Definition stored_refresh_token (db : Db) (user_id : Z) (tok : string) (now : Z)
    : option RefreshTokenRow :=
  find (λ r, (rt_user_id r =? user_id) && String.eqb (rt_token r) tok
             && (rt_expires_at r >? datetime_now now))
       (refresh_tokens db).

(** [INSERT INTO refresh_tokens (user_id, token, expires_at) VALUES (?, ?,
    datetime('now', '+7 days'))] *)
Definition insert_refresh_token (db : Db) (user_id : Z) (tok : string) (now : Z) : Db :=
  {| users := users db;
     refresh_tokens := refresh_tokens db ++
       [{| rt_user_id := user_id; rt_token := tok;
           rt_expires_at := datetime_now now + 7 * 24 * 60 * 60 |}];
     activity_log := activity_log db |}.


(** [DELETE FROM refresh_tokens WHERE user_id = ?] *)
Definition delete_all_refresh_tokens (db : Db) (user_id : Z) : Db :=
  {| users := users db;
     refresh_tokens :=
       List.filter (λ r, negb (rt_user_id r =? user_id)) (refresh_tokens db);
     activity_log := activity_log db |}.

(** [INSERT INTO activity_log (user_id, action, entity_type, entity_id,
    details) VALUES (..)] *)
Definition append_activity (db : Db) (row : ActivityRow) : Db :=
  {| users := users db;
     refresh_tokens := refresh_tokens db;
     activity_log := activity_log db ++ [row] |}.

(** ** Access control gate *)

Definition unauthorized (msg code : string) : Response := {|
  status := 401;
  headers := [];
  body := [("success"%string, JBool false);
           ("message"%string, JStr msg);
           ("code"%string, JStr code)]
|}.

Definition forbidden : Response := {|
  status := 403;
  headers := [];
  body := [("success"%string, JBool false);
           ("message"%string, JStr "Insufficient permissions");
           ("code"%string, JStr "FORBIDDEN")]
|}.

(** [!authHeader || !authHeader.startsWith('Bearer ')] is false. *)
Definition has_bearer (authHeader : option string) : bool :=
  truthy_str authHeader && startsWith "Bearer " (default EmptyString authHeader).

(** [authHeader.split(' ')[1]] *)
Definition bearer_token (authHeader : option string) : option string :=
  split_space (default EmptyString authHeader) !! 1%nat.

(** [req.user = decoded; req.token = token] *)
Definition authenticated (req : Request) (decoded : Payload) : Request :=
  {| ip := ip req; remoteAddress := remoteAddress req;
     authorization := authorization req;
     user := Some decoded; token := bearer_token (authorization req) |}.

Definition authenticate `{JwtCodec} (cfg : Cfg.t) (req : Request) (now : Z) : Mw :=
  let authHeader := authorization req in
  if negb (has_bearer authHeader) then
    MwRespond (unauthorized "Access token required" "MISSING_TOKEN")
  else
    let tok := bearer_token authHeader in
    match jwt_verify tok (Cfg.secret (Cfg.jwt cfg))
            (Some {| opt_issuer := Cfg.issuer (Cfg.jwt cfg);
                     opt_audience := Cfg.audience (Cfg.jwt cfg) |}) now with
    | inl decoded => MwNext (authenticated req decoded)
    | inr TokenExpiredError =>
        MwRespond (unauthorized "Token expired" "TOKEN_EXPIRED")
    | inr _ =>
        MwRespond (unauthorized "Invalid token" "INVALID_TOKEN")
    end.

Definition optionalAuth `{JwtCodec} (cfg : Cfg.t) (req : Request) (now : Z) : Mw :=
  let authHeader := authorization req in
  if has_bearer authHeader then
    let tok := bearer_token authHeader in
    match jwt_verify tok (Cfg.secret (Cfg.jwt cfg)) None now with
    | inl decoded => MwNext (authenticated req decoded)
    | inr _ => MwNext req
    end
  else MwNext req.

(** [allowedRoles.includes(req.user.role)] *)
Definition includes_role (allowedRoles : list string) (role : option string) : bool :=
  match role with
  | Some r => existsb (String.eqb r) allowedRoles
  | None => false
  end.

Definition authorize (allowedRoles : list string) (req : Request) : Mw :=
  match user req with
  | None => MwRespond (unauthorized "Authentication required" "AUTH_REQUIRED")
  | Some u =>
      if negb (includes_role allowedRoles (p_role u)) then MwRespond forbidden
      else MwNext req
  end.

(** [authenticate] followed by [authorize(...allowedRoles)], as the routes
    chain them. *)
Definition gate `{JwtCodec} (cfg : Cfg.t) (allowedRoles : list string)
    (req : Request) (now : Z) : Mw :=
  match authenticate cfg req now with
  | MwNext req' => authorize allowedRoles req'
  | MwRespond res => MwRespond res
  end.

(** ** Token service *)

Definition generateAccessToken `{JwtCodec} (cfg : Cfg.t) (u : UserRow) (now : Z) : string :=
  jwt_sign {| p_id := u_id u;
              p_email := Some (u_email u);
              p_name := Some (u_name u);
              p_role := Some (u_role u);
              p_type := None;
              p_iat := now / 1000;
              p_exp := Some (now / 1000 + Cfg.accessTokenExpiry (Cfg.jwt cfg));
              p_iss := Some (Cfg.issuer (Cfg.jwt cfg));
              p_aud := Some (Cfg.audience (Cfg.jwt cfg)) |}
           (Cfg.secret (Cfg.jwt cfg)).

Definition generateRefreshToken `{JwtCodec} (cfg : Cfg.t) (u : UserRow) (now : Z) : string :=
  jwt_sign {| p_id := u_id u;
              p_email := None;
              p_name := None;
              p_role := None;
              p_type := Some "refresh"%string;
              p_iat := now / 1000;
              p_exp := Some (now / 1000 + Cfg.refreshTokenExpiry (Cfg.jwt cfg));
              p_iss := None;
              p_aud := None |}
           (Cfg.refreshSecret (Cfg.jwt cfg)).

(** [null] is [None]. *)
Definition verifyRefreshToken `{JwtCodec} (cfg : Cfg.t) (tok : option string) (now : Z)
    : option Payload :=
  match jwt_verify tok (Cfg.refreshSecret (Cfg.jwt cfg)) None now with
  | inl decoded => Some decoded
  | inr _ => None
  end.

(** ** Auth routes *)

(** Process-wide state reached by the auth routes. *)
Record App := {
  rateLimitStore : RateLimitStore;
  loginAttempts : LoginAttempts;
  db : Db
}.

Definition with_loginAttempts (st : App) (la : LoginAttempts) : App :=
  {| rateLimitStore := rateLimitStore st; loginAttempts := la; db := db st |}.

Definition with_db (st : App) (d : Db) : App :=
  {| rateLimitStore := rateLimitStore st; loginAttempts := loginAttempts st; db := d |}.

Definition ok (fields : list (string * Json)) : Response :=
  {| status := 200; headers := []; body := fields |}.

Definition user_json (u : UserRow) : Json :=
  JObj [("id"%string, JNum (u_id u));
        ("email"%string, JStr (u_email u));
        ("name"%string, JStr (u_name u));
        ("role"%string, JStr (u_role u));
        ("department"%string,
         match u_department u with Some d => JStr d | None => JNull end)].

(** The 423 response of the login handler, built from the lock status. *)
Definition account_locked (lockStatus : LockStatus) : Response := {|
  status := 423;
  headers := [];
  body := [("success"%string, JBool false);
           ("message"%string, str_or_undefined (message lockStatus));
           ("code"%string, JStr "ACCOUNT_LOCKED");
           ("retryAfter"%string, num_or_undefined (remainingSeconds lockStatus))]
|}.

(** The 401 response of the login handler after a wrong password, built from
    the result of [trackLoginAttempt]. *)
Definition invalid_credentials (attemptResult : LockStatus) : Response := {|
  status := 401;
  headers := [];
  body := [("success"%string, JBool false);
           ("message"%string, JStr "Invalid email or password");
           ("code"%string, JStr "INVALID_CREDENTIALS");
           ("attemptsRemaining"%string,
            num_or_undefined (attemptsRemaining attemptResult))]
|}.

(** The handler of [POST /api/auth/login], entered with a body that passed
    [validate(schemas.login)]. *)
Definition login `{JwtCodec} `{Bcrypt} (cfg : Cfg.t) (email password : string)
    (now : Z) (st : App) : App * Response :=
  let '(la, lockStatus) := isAccountLocked email now (loginAttempts st) in
  if locked lockStatus then
    (with_loginAttempts st la, account_locked lockStatus)
  else
    match user_by_email (db st) email with
    | None =>
        let '(la, _) := trackLoginAttempt cfg email false now la in
        (with_loginAttempts st la,
         unauthorized "Invalid email or password" "INVALID_CREDENTIALS")
    | Some u =>
        if negb (bcrypt_compare password (u_password u)) then
          let '(la, attemptResult) := trackLoginAttempt cfg email false now la in
          (with_loginAttempts st la, invalid_credentials attemptResult)
        else
          let '(la, _) := trackLoginAttempt cfg email true now la in
          let accessToken := generateAccessToken cfg u now in
          let refreshToken := generateRefreshToken cfg u now in
          let d := insert_refresh_token (db st) (u_id u) refreshToken now in
          let d := append_activity d
                     {| al_user_id := u_id u; al_action := "user_login";
                        al_entity_type := "user"; al_entity_id := u_id u;
                        al_details := "User logged in" |} in
          ({| rateLimitStore := rateLimitStore st; loginAttempts := la; db := d |},
           ok [("success"%string, JBool true);
               ("message"%string, JStr "Login successful");
               ("user"%string, user_json u);
               ("accessToken"%string, JStr accessToken);
               ("refreshToken"%string, JStr refreshToken)])
    end.

(** The handler of [POST /api/auth/refresh]; [refreshToken] is
    [req.body.refreshToken]. *)
Definition refresh `{JwtCodec} (cfg : Cfg.t) (refreshToken : option string)
    (now : Z) (st : App) : App * Response :=
  if negb (truthy_str refreshToken) then
    (st, {| status := 400; headers := [];
            body := [("success"%string, JBool false);
                     ("message"%string, JStr "Refresh token required");
                     ("code"%string, JStr "MISSING_REFRESH_TOKEN")] |})
  else
    match verifyRefreshToken cfg refreshToken now with
    | None =>
        (st, unauthorized "Invalid or expired refresh token" "INVALID_REFRESH_TOKEN")
    | Some decoded =>
        match stored_refresh_token (db st) (p_id decoded)
                (default EmptyString refreshToken) now with
        | None =>
            (st, unauthorized "Refresh token not found or expired" "TOKEN_NOT_FOUND")
        | Some _ =>
            match user_by_id (db st) (p_id decoded) with
            | None => (st, unauthorized "User not found" "USER_NOT_FOUND")
            | Some u =>
                let newAccessToken := generateAccessToken cfg u now in
                (st, ok [("success"%string, JBool true);
                         ("accessToken"%string, JStr newAccessToken)])
            end
        end
    end.


(** ** Runs of the operations *)

(** Successive requests of one client, at the clock readings [times], through
    the limiter instance [rateLimit(maxRequests, windowMs)]. *)
Fixpoint serve (cfg : Cfg.t) (maxRequests windowMs : Z) (req : Request)
    (times : list Z) (store : RateLimitStore) : RateLimitStore * list Mw :=
  match times with
  | [] => (store, [])
  | now :: times' =>
      let '(store, r) := rateLimit cfg maxRequests windowMs req now store in
      let '(store, rs) := serve cfg maxRequests windowMs req times' store in
      (store, r :: rs)
  end.

(** The two limiter instances in front of [POST /api/v2/auth/login]: the
    global one mounted on [/api/] by the server, then the one of the route. *)
Definition login_limiters (cfg : Cfg.t) (req : Request) (now : Z)
    (store : RateLimitStore) : RateLimitStore * Mw :=
  let rl := Cfg.rateLimit cfg in
  match rateLimit cfg (Cfg.maxRequests rl) (Cfg.windowMs rl) req now store with
  | (store, MwNext req) =>
      rateLimit cfg (Cfg.authMaxRequests rl) (Cfg.authWindowMs rl) req now store
  | (store, MwRespond res) => (store, MwRespond res)
  end.

(** [POST /api/v2/auth/login] as mounted: the two limiters, then the handler
    (on a body that passes validation). *)
Definition login_route `{JwtCodec} `{Bcrypt} (cfg : Cfg.t) (req : Request)
    (email password : string) (now : Z) (st : App) : App * Response :=
  match login_limiters cfg req now (rateLimitStore st) with
  | (store, MwNext _) =>
      login cfg email password now
        {| rateLimitStore := store; loginAttempts := loginAttempts st; db := db st |}
  | (store, MwRespond res) =>
      ({| rateLimitStore := store; loginAttempts := loginAttempts st; db := db st |},
       res)
  end.

(** Successive logins with the same credentials, each from the client address
    and at the clock reading listed. *)
Fixpoint login_route_run `{JwtCodec} `{Bcrypt} (cfg : Cfg.t) (email password : string)
    (calls : list (string * Z)) (st : App) : App * list Response :=
  match calls with
  | [] => (st, [])
  | (addr, now) :: calls' =>
      let '(st, r) :=
        login_route cfg {| ip := Some addr; remoteAddress := None;
                           authorization := None; user := None; token := None |}
          email password now st in
      let '(st, rs) := login_route_run cfg email password calls' st in
      (st, r :: rs)
  end.

Fixpoint login_limiters_run (cfg : Cfg.t) (req : Request) (times : list Z)
    (store : RateLimitStore) : RateLimitStore * list Mw :=
  match times with
  | [] => (store, [])
  | now :: times' =>
      let '(store, r) := login_limiters cfg req now store in
      let '(store, rs) := login_limiters_run cfg req times' store in
      (store, r :: rs)
  end.

(** Consecutive failed attempts for one identity. *)
Fixpoint failures (cfg : Cfg.t) (email : string) (times : list Z)
    (loginAttempts : LoginAttempts) : LoginAttempts * list LockStatus :=
  match times with
  | [] => (loginAttempts, [])
  | now :: times' =>
      let '(la, r) := trackLoginAttempt cfg email false now loginAttempts in
      let '(la, rs) := failures cfg email times' la in
      (la, r :: rs)
  end.

(** Any interleaving of calls on the login-attempts map. *)
Inductive GuardCall :=
| Track (email : string) (success : bool) (now : Z)
| IsLocked (email : string) (now1 now2 : Z)
| Cleanup (now : Z).

Definition guard_call (cfg : Cfg.t) (c : GuardCall) (la : LoginAttempts) : LoginAttempts :=
  match c with
  | Track email success now => (trackLoginAttempt cfg email success now la).1
  | IsLocked email now1 now2 => (isAccountLocked_at email now1 now2 la).1
  | Cleanup now => cleanup_loginAttempts now la
  end.

Definition guard_calls (cfg : Cfg.t) (cs : list GuardCall) (la : LoginAttempts)
    : LoginAttempts :=
  fold_left (λ la c, guard_call cfg c la) cs la.

(** Consecutive submissions of the same credentials to the login handler. *)
Fixpoint logins `{JwtCodec} `{Bcrypt} (cfg : Cfg.t) (email password : string)
    (times : list Z) (st : App) : App * list Response :=
  match times with
  | [] => (st, [])
  | now :: times' =>
      let '(st, r) := login cfg email password now st in
      let '(st, rs) := logins cfg email password times' st in
      (st, r :: rs)
  end.

(** ** Predicates *)

(** Every stored counter is below the lockout threshold. *)
Definition attempts_bounded (cfg : Cfg.t) (la : LoginAttempts) : Prop :=
  ∀ email record, la !! email = Some record →
    0 ≤ attempts record ≤ Cfg.maxLoginAttempts (Cfg.security cfg) - 1.

(** Every stored request count is within the limiter's maximum. *)
Definition counts_bounded (maxRequests : Z) (store : RateLimitStore) : Prop :=
  ∀ key record, store !! key = Some record → 1 ≤ count record ≤ maxRequests.

(** The record carries a lock: [record.lockUntil] is truthy. *)
Definition carries_lock (record : LoginAttemptRecord) (until : Z) : Prop :=
  lockUntil record = Some until ∧ until ≠ 0.

(** The token is provided and well formed, and its signature verifies under
    [secret]. *)
Definition signed_under `{JwtCodec} (tok : option string) (secret : string)
    (jwt : SignedJwt) : Prop :=
  truthy_str tok = true
  ∧ jwt_decode (default EmptyString tok) = Some jwt
  ∧ jwt_key jwt = secret.

(** [exp] has passed at the clock reading [now]. *)
Definition expired_at (jwt : SignedJwt) (now : Z) : Prop :=
  ∃ exp, p_exp (jwt_payload jwt) = Some exp ∧ exp ≤ now / 1000.

Definition unexpired_at (jwt : SignedJwt) (now : Z) : Prop :=
  ∀ exp, p_exp (jwt_payload jwt) = Some exp → now / 1000 < exp.

(** The token names the audience and the issuer asked for. *)
Definition names (jwt : SignedJwt) (o : VerifyOptions) : Prop :=
  p_aud (jwt_payload jwt) = Some (opt_audience o)
  ∧ p_iss (jwt_payload jwt) = Some (opt_issuer o).

(** [recordAttempt] on a failure as section 4.2 of the specification words
    it, with no look at an existing lock: increment [attempts]; at the
    threshold set [lockUntil], reset [attempts] and return locked; otherwise
    return unlocked with the attempts that remain. *)
Definition recordAttempt_spec (cfg : Cfg.t) (email : string) (now : Z)
    (la : LoginAttempts) : LoginAttempts * LockStatus :=
  let record := default fresh_record (la !! email) in
  let n := attempts record + 1 in
  if n >=? Cfg.maxLoginAttempts (Cfg.security cfg) then
    (<[email := {| attempts := 0;
                   lockUntil := Some (now + Cfg.lockoutDuration (Cfg.security cfg)) |}]> la,
     too_many_attempts cfg)
  else
    (<[email := {| attempts := n; lockUntil := lockUntil record |}]> la,
     unlocked_with (Cfg.maxLoginAttempts (Cfg.security cfg) - n)).

(** ** Concrete collaborators, to run the handlers on examples *)

#[global] Instance Payload_eq_dec : EqDecision Payload.
Proof. solve_decision. Defined.

#[global] Instance SignedJwt_eq_dec : EqDecision SignedJwt.
Proof. solve_decision. Defined.

(** A codec over a finite table of tokens: a token is encoded as the string
    it is listed under and decoded by looking that string up. *)
Definition table_codec (table : list (string * SignedJwt)) : JwtCodec := {|
  jwt_encode j :=
    default EmptyString (fst <$> find (λ e, bool_decide (snd e = j)) table);
  jwt_decode s :=
    snd <$> find (λ e, String.eqb (fst e) s) table
|}.

(** A password check that compares with the stored value. *)
Definition plain_bcrypt : Bcrypt := {| bcrypt_compare := String.eqb |}.

Definition prof : UserRow := {|
  u_id := 7; u_email := "prof@x.edu"; u_password := "s3cret-Hash";
  u_name := "Prof X"; u_role := "professor"; u_department := None
|}.

Definition sample_db : Db :=
  {| users := [prof]; refresh_tokens := []; activity_log := [] |}.

Definition sample_app : App :=
  {| rateLimitStore := ∅; loginAttempts := ∅; db := sample_db |}.

Definition client (addr : string) : Request :=
  {| ip := Some addr; remoteAddress := None; authorization := None;
     user := None; token := None |}.

Definition bearer (tok : string) : Request :=
  {| ip := Some "203.0.113.7"%string; remoteAddress := None;
     authorization := Some ("Bearer " +:+ tok)%string;
     user := None; token := None |}.

(** A refresh token of [prof], issued at second 1000. *)
Definition prof_refresh : SignedJwt := {|
  jwt_payload := {| p_id := 7; p_email := None; p_name := None; p_role := None;
                    p_type := Some "refresh"%string; p_iat := 1000;
                    p_exp := Some (1000 + 604800); p_iss := None; p_aud := None |};
  jwt_key := Cfg.refreshSecret (Cfg.jwt config)
|}.

(** An access token of [prof] as [generateAccessToken] writes it. *)
Definition prof_access : SignedJwt := {|
  jwt_payload := {| p_id := 7; p_email := Some "prof@x.edu"%string;
                    p_name := Some "Prof X"%string; p_role := Some "professor"%string;
                    p_type := None; p_iat := 1000; p_exp := Some (1000 + 900);
                    p_iss := Some "EduPay Platform"%string;
                    p_aud := Some "EduPay Users"%string |};
  jwt_key := Cfg.secret (Cfg.jwt config)
|}.

(** A token signed with the access secret that names another issuer. *)
Definition foreign_issuer : SignedJwt := {|
  jwt_payload := {| p_id := 7; p_email := Some "prof@x.edu"%string;
                    p_name := Some "Prof X"%string; p_role := Some "admin"%string;
                    p_type := None; p_iat := 1000; p_exp := Some (1000 + 900);
                    p_iss := Some "Some Other Service"%string;
                    p_aud := Some "EduPay Users"%string |};
  jwt_key := Cfg.secret (Cfg.jwt config)
|}.

Definition sample_codec : JwtCodec :=
  table_codec [("rt.prof"%string, prof_refresh);
               ("at.prof"%string, prof_access);
               ("at.foreign"%string, foreign_issuer)].

(** The state after [prof] logged in with the right password at second 1000:
    the tokens issued are ["at.prof"] and ["rt.prof"], and the refresh token
    is stored. *)
Definition logged_in_app : App :=
  (@login sample_codec plain_bcrypt config "prof@x.edu" "s3cret-Hash" 1000000
     sample_app).1.

(** ** Further definitions: tokens on the wire *)

(** The string holds no space, so [split(' ')] leaves it in one piece. *)
Fixpoint no_space (s : string) : bool :=
  match s with
  | EmptyString => true
  | String c r => negb (Ascii.eqb c " "%char) && no_space r
  end.

(** The payload that [generateAccessToken] hands to [jwt.sign], with the
    registered claims [jwt.sign] adds at clock reading [now]. *)
Definition access_claims (cfg : Cfg.t) (u : UserRow) (now : Z) : Payload :=
  {| p_id := u_id u;
     p_email := Some (u_email u);
     p_name := Some (u_name u);
     p_role := Some (u_role u);
     p_type := None;
     p_iat := now / 1000;
     p_exp := Some (now / 1000 + Cfg.accessTokenExpiry (Cfg.jwt cfg));
     p_iss := Some (Cfg.issuer (Cfg.jwt cfg));
     p_aud := Some (Cfg.audience (Cfg.jwt cfg)) |}.

(** The same for [generateRefreshToken]. *)
Definition refresh_claims (cfg : Cfg.t) (u : UserRow) (now : Z) : Payload :=
  {| p_id := u_id u;
     p_email := None;
     p_name := None;
     p_role := None;
     p_type := Some "refresh"%string;
     p_iat := now / 1000;
     p_exp := Some (now / 1000 + Cfg.refreshTokenExpiry (Cfg.jwt cfg));
     p_iss := None;
     p_aud := None |}.

(** What the real codec does for the token [jwt]: it writes a non-empty
    string without spaces (base64url segments joined by dots) that decodes
    to [jwt] again. *)
Definition on_the_wire `{JwtCodec} (jwt : SignedJwt) : Prop :=
  jwt_decode (jwt_encode jwt) = Some jwt
  ∧ jwt_encode jwt ≠ EmptyString
  ∧ no_space (jwt_encode jwt) = true.

(** A request that carries [tok] as its bearer token. *)
Definition with_bearer (req : Request) (tok : string) : Request :=
  {| ip := ip req; remoteAddress := remoteAddress req;
     authorization := Some ("Bearer " +:+ tok)%string;
     user := user req; token := token req |}.

(** ** Further definitions: registration and password change *)

(** [bcryptjs]: [bcrypt.hash(password, salt)]; the salt that
    [bcrypt.genSalt] draws is an argument of the handlers. *)
Class BcryptHash := {
  bcrypt_hash : string → string → string
}.

(** [INSERT INTO users (email, password, name, role, department, phone)
    VALUES (..)]: the row comes with the id that the store assigns to it
    (the next value of its [AUTOINCREMENT] key).  The columns kept are the
    ones the auth routes read back. *)
Definition insert_user (db : Db) (row : UserRow) : Db :=
  {| users := users db ++ [row];
     refresh_tokens := refresh_tokens db;
     activity_log := activity_log db |}.

(** [UPDATE users SET password = ? WHERE id = ?] *)
Definition update_password (db : Db) (hashed : string) (id : Z) : Db :=
  {| users :=
       map (λ u, if u_id u =? id
                 then {| u_id := u_id u; u_email := u_email u; u_password := hashed;
                         u_name := u_name u; u_role := u_role u;
                         u_department := u_department u |}
                 else u)
           (users db);
     refresh_tokens := refresh_tokens db;
     activity_log := activity_log db |}.

(** The handler of [POST /api/auth/register], entered with a body that
    passed [validate(schemas.register)].  Two ids are in play: [assigned] is
    the id the store gives the new row, and [rowid] is
    [result.lastInsertRowid], which [run] of [database.js] reads with
    [SELECT last_insert_rowid()] only after it has saved the database, and
    which need not be [assigned].  The handler builds its [user] object, the
    two tokens, the refresh-token row and the activity row from [rowid]. *)
Definition register `{JwtCodec} `{BcryptHash} (cfg : Cfg.t)
    (email password name role : string) (department : option string)
    (salt : string) (assigned rowid : Z) (now : Z) (st : App) : App * Response :=
  match user_by_email (db st) email with
  | Some _ =>
      (st, {| status := 409; headers := [];
              body := [("success"%string, JBool false);
                       ("message"%string, JStr "Email already registered");
                       ("code"%string, JStr "EMAIL_EXISTS")] |})
  | None =>
      let hashedPassword := bcrypt_hash password salt in
      let row := {| u_id := assigned; u_email := email; u_password := hashedPassword;
                    u_name := name; u_role := role;
                    u_department := or_str department None |} in
      let d := insert_user (db st) row in
      (* [user = { id: result.lastInsertRowid, email, name, role, department }];
         the token generators read its id, email, name and role only *)
      let user := {| u_id := rowid; u_email := email; u_password := EmptyString;
                     u_name := name; u_role := role; u_department := department |} in
      let accessToken := generateAccessToken cfg user now in
      let refreshToken := generateRefreshToken cfg user now in
      let d := insert_refresh_token d rowid refreshToken now in
      let d := append_activity d
                 {| al_user_id := rowid; al_action := "user_registered";
                    al_entity_type := "user"; al_entity_id := rowid;
                    al_details := "New user registration" |} in
      (with_db st d,
       {| status := 201; headers := [];
          body := [("success"%string, JBool true);
                   ("message"%string, JStr "Registration successful");
                   ("user"%string,
                    JObj [("id"%string, JNum rowid);
                          ("email"%string, JStr email);
                          ("name"%string, JStr name);
                          ("role"%string, JStr role);
                          ("department"%string, str_or_undefined department)]);
                   ("accessToken"%string, JStr accessToken);
                   ("refreshToken"%string, JStr refreshToken)] |})
  end.

(** The handler of [POST /api/auth/change-password], entered after
    [authenticate] set [req.user] to [principal], on a body whose two
    passwords are strings or absent.  When no user row has the id of the
    principal, reading [user.password] throws and the [catch] branch answers
    500. *)
Definition change_password `{Bcrypt} `{BcryptHash} (principal : Payload)
    (currentPassword newPassword : option string) (salt : string)
    (st : App) : App * Response :=
  if negb (truthy_str currentPassword) || negb (truthy_str newPassword) then
    (st, {| status := 400; headers := [];
            body := [("success"%string, JBool false);
                     ("message"%string, JStr "Current and new password required")] |})
  else
    match user_by_id (db st) (p_id principal) with
    | None =>
        (st, {| status := 500; headers := [];
                body := [("success"%string, JBool false);
                         ("message"%string, JStr "Password change failed")] |})
    | Some u =>
        if negb (bcrypt_compare (default EmptyString currentPassword) (u_password u)) then
          (st, {| status := 401; headers := [];
                  body := [("success"%string, JBool false);
                           ("message"%string, JStr "Current password is incorrect")] |})
        else
          let hashedPassword := bcrypt_hash (default EmptyString newPassword) salt in
          let d := update_password (db st) hashedPassword (p_id principal) in
          let d := delete_all_refresh_tokens d (p_id principal) in
          (with_db st d,
           ok [("success"%string, JBool true);
               ("message"%string, JStr "Password changed successfully")])
    end.

(** A hashing that stores the password itself, to go with [plain_bcrypt]. *)
Definition plain_hash : BcryptHash := {| bcrypt_hash password salt := password |}.

(** ** Further definitions: input validation ([middleware/validator.js])

    Here a string is read as its sequence of code units, each below 256. *)

(** The code units below 256 that [String.prototype.trim] strips and that
    [\s] matches: tab, line feed, vertical tab, form feed, carriage return,
    space and no-break space. *)
Definition is_whitespace (c : ascii) : bool :=
  match c with
  | "009" | "010" | "011" | "012" | "013" | " " | "160" => true
  | _ => false
  end%char.

Fixpoint trimStart (l : list ascii) : list ascii :=
  match l with
  | [] => []
  | c :: r => if is_whitespace c then trimStart r else l
  end.

Definition trimEnd (l : list ascii) : list ascii := rev (trimStart (rev l)).

(** [str.trim()] *)
Definition trim (l : list ascii) : list ascii := trimEnd (trimStart l).

(** [.replace(/[<>]/g, '')] *)
Definition strip_angles (l : list ascii) : list ascii :=
  List.filter (λ c, negb (Ascii.eqb c "<" || Ascii.eqb c ">")) l.

(** [sanitizeString] on a string argument:
    [str.trim().replace(/[<>]/g, '').substring(0, 10000)]. *)
Definition sanitizeString (str : string) : string :=
  string_of_list_ascii
    (firstn (Z.to_nat 10000) (strip_angles (trim (list_ascii_of_string str)))).

(** Regular expressions, as far as the patterns of the validator go. *)
Inductive Regex :=
| ReNone
| ReEmpty
| ReClass (f : ascii → bool)
| ReSeq (a b : Regex)
| ReAlt (a b : Regex)
| ReStar (a : Regex).

(** [a+] *)
Definition RePlus (a : Regex) : Regex := ReSeq a (ReStar a).

Fixpoint nullable (r : Regex) : bool :=
  match r with
  | ReNone => false
  | ReEmpty => true
  | ReClass _ => false
  | ReSeq a b => nullable a && nullable b
  | ReAlt a b => nullable a || nullable b
  | ReStar _ => true
  end.

Fixpoint derive (c : ascii) (r : Regex) : Regex :=
  match r with
  | ReNone => ReNone
  | ReEmpty => ReNone
  | ReClass f => if f c then ReEmpty else ReNone
  | ReSeq a b =>
      if nullable a then ReAlt (ReSeq (derive c a) b) (derive c b)
      else ReSeq (derive c a) b
  | ReAlt a b => ReAlt (derive c a) (derive c b)
  | ReStar a => ReSeq (derive c a) (ReStar a)
  end.

(** Whether the whole input matches: what [/^...$/.test(input)] answers. *)
Fixpoint matches (r : Regex) (l : list ascii) : bool :=
  match l with
  | [] => nullable r
  | c :: l' => matches (derive c r) l'
  end.

(** The inputs a regular expression denotes. *)
Inductive lang : Regex → list ascii → Prop :=
| lang_empty : lang ReEmpty []
| lang_class f c : f c = true → lang (ReClass f) [c]
| lang_seq a b x y : lang a x → lang b y → lang (ReSeq a b) (x ++ y)
| lang_alt_l a b x : lang a x → lang (ReAlt a b) x
| lang_alt_r a b x : lang b x → lang (ReAlt a b) x
| lang_star_nil a : lang (ReStar a) []
| lang_star_cons a x y : lang a x → lang (ReStar a) y → lang (ReStar a) (x ++ y).

(** [[^\s@]] *)
Definition not_space_or_at (c : ascii) : bool :=
  negb (is_whitespace c) && negb (Ascii.eqb c "@").

(** [patterns.email]: [/^[^\s@]+@[^\s@]+\.[^\s@]+$/] *)
Definition patterns_email : Regex :=
  ReSeq (RePlus (ReClass not_space_or_at))
    (ReSeq (ReClass (Ascii.eqb "@"))
       (ReSeq (RePlus (ReClass not_space_or_at))
          (ReSeq (ReClass (Ascii.eqb "."))
             (RePlus (ReClass not_space_or_at))))).

(** [validators.email(value, fieldName).valid] on a string value. *)
Definition validators_email (value : string) : bool :=
  matches patterns_email (list_ascii_of_string value).

(** A non-empty run of characters that are neither whitespace nor ["@"]. *)
Definition email_part (l : list ascii) : Prop :=
  l ≠ [] ∧ Forall (λ c, not_space_or_at c = true) l.

(** [validators.required(value, fieldName).valid] on a string value. *)
Definition validators_required (value : string) : bool :=
  negb (String.eqb value EmptyString).

(** The checks of [validate(schema)] on one field of the login schema whose
    value is a string: [required], then the validator of the field's type;
    the list holds the message pushed to [errors], if any. *)
Definition check_email (value : string) : list string :=
  if negb (validators_required value) then ["email is required"%string]
  else if negb (validators_email value) then
    ["email must be a valid email address"%string]
  else [].

(** [password: { required: true, type: 'string', minLength: 1 }], with the
    default [maxLength] of 10000 of [validators.string]. *)
Definition check_password (value : string) : list string :=
  if negb (validators_required value) then ["password is required"%string]
  else if Z.of_nat (String.length value) <? 1 then
    ["password must be at least 1 characters"%string]
  else if Z.of_nat (String.length value) >? 10000 then
    ["password must be at most 10000 characters"%string]
  else [].

(** [validate(schemas.login)] on a body whose [email] and [password] are
    strings: the body is sanitised, then the fields are checked in the order
    of the schema.  On the left the [errors] of the 400 answer, on the right
    the two fields of the body that the handler is entered with. *)
Definition validate_login (email password : string)
    : list string + (string * string) :=
  let email := sanitizeString email in
  let password := sanitizeString password in
  match check_email email ++ check_password password with
  | [] => inr (email, password)
  | errors => inl errors
  end.

(** [validate(schemas.login)] followed by the handler of the login route,
    on a body whose [email] and [password] are the strings given. *)
Definition login_validated `{JwtCodec} `{Bcrypt} (cfg : Cfg.t)
    (email password : string) (now : Z) (st : App)
    : App * (list string + Response) :=
  match validate_login email password with
  | inl errors => (st, inl errors)
  | inr (email, password) =>
      let '(st, res) := login cfg email password now st in (st, inr res)
  end.

(** * Properties *)

(** ** Arithmetic of [Math.ceil] *)

Lemma ceil_div_pos a b : 0 < a → 0 < b → 0 < ceil_div a b.
Proof.
  intros Ha Hb. unfold ceil_div.
  assert (- a / b < 0); [|lia].
  apply Z.div_lt_upper_bound; lia.
Qed.


Lemma ceil_div_nonpos a b : a ≤ 0 → 0 < b → ceil_div a b ≤ 0.
Proof.
  intros Ha Hb. unfold ceil_div.
  assert (0 ≤ - a / b); [|lia].
  apply Z.div_pos; lia.
Qed.

(** ** Rate limiter: one step *)

Section rate_limiter.
Context (cfg : Cfg.t) (maxRequests windowMs : Z) (req : Request).
Hypothesis enabled : Cfg.enableRateLimiting (Cfg.features cfg) = true.

Local Abbreviation key := (client_key req).

Lemma rateLimit_first (now : Z) (store : RateLimitStore) :
  store !! key = None →
  rateLimit cfg maxRequests windowMs req now store
  = (<[key := {| count := 1; resetTime := now + windowMs |}]> store, MwNext req).
Proof using enabled.
  intros Hk. unfold rateLimit. rewrite enabled. simpl.
  fold key. by rewrite Hk.
Qed.

Lemma rateLimit_expired (now : Z) (store : RateLimitStore) record :
  store !! key = Some record → now > resetTime record →
  rateLimit cfg maxRequests windowMs req now store
  = (<[key := {| count := 1; resetTime := now + windowMs |}]> store, MwNext req).
Proof using enabled.
  intros Hk Hnow. unfold rateLimit. rewrite enabled. simpl.
  fold key. rewrite Hk.
  destruct (Z.gtb_spec now (resetTime record)); [done | lia].
Qed.

Lemma rateLimit_allowed (now : Z) (store : RateLimitStore) record :
  store !! key = Some record → now ≤ resetTime record →
  count record < maxRequests →
  rateLimit cfg maxRequests windowMs req now store
  = (<[key := {| count := count record + 1; resetTime := resetTime record |}]> store,
     MwNext req).
Proof using enabled.
  intros Hk Hnow Hc. unfold rateLimit. rewrite enabled. simpl.
  fold key. rewrite Hk.
  destruct (Z.gtb_spec now (resetTime record)); [lia |].
  destruct (Z.geb_spec (count record) maxRequests); [lia | done].
Qed.

Lemma rateLimit_rejected (now : Z) (store : RateLimitStore) record :
  store !! key = Some record → now ≤ resetTime record →
  maxRequests ≤ count record →
  rateLimit cfg maxRequests windowMs req now store
  = (store,
     MwRespond (rate_limit_exceeded (ceil_div (resetTime record - now) 1000))).
Proof using enabled.
  intros Hk Hnow Hc. unfold rateLimit. rewrite enabled. simpl.
  fold key. rewrite Hk.
  destruct (Z.gtb_spec now (resetTime record)); [lia |].
  destruct (Z.geb_spec (count record) maxRequests); [done | lia].
Qed.

(** While the count stays below the maximum, every request inside the
    window is let through and counted. *)
Lemma serve_allowed ts : ∀ (store : RateLimitStore) record,
  store !! key = Some record →
  Forall (λ t, t ≤ resetTime record) ts →
  count record + Z.of_nat (length ts) ≤ maxRequests →
  serve cfg maxRequests windowMs req ts store
  = (<[key := {| count := count record + Z.of_nat (length ts);
                 resetTime := resetTime record |}]> store,
     replicate (length ts) (MwNext req)).
Proof using enabled.
  induction ts as [|t ts IH]; intros store record Hk Hts Hc.
  - simpl. rewrite Z.add_0_r. f_equal.
    rewrite insert_id; [done|]. rewrite Hk. by destruct record.
  - apply Forall_cons in Hts as [Ht Hts].
    cbn [serve length] in *.
    rewrite (rateLimit_allowed _ _ record) by (done || lia).
    erewrite IH; [| apply lookup_insert_eq | done | simpl; lia].
    simpl. rewrite insert_insert_eq. do 3 f_equal. lia.
Qed.

(** However many requests arrive inside the window, the stored count stays
    within the maximum and the window is not moved. *)
Lemma serve_bounded ts : ∀ (store : RateLimitStore) record,
  store !! key = Some record →
  Forall (λ t, t ≤ resetTime record) ts →
  1 ≤ count record ≤ maxRequests →
  ∃ record', (serve cfg maxRequests windowMs req ts store).1 !! key = Some record'
             ∧ resetTime record' = resetTime record
             ∧ 1 ≤ count record' ≤ maxRequests.
Proof using enabled.
  induction ts as [|t ts IH]; intros store record Hk Hts Hc.
  - exists record. done.
  - apply Forall_cons in Hts as [Ht Hts]. cbn [serve].
    destruct (Z.lt_ge_cases (count record) maxRequests) as [Hlt | Hge].
    + rewrite (rateLimit_allowed _ _ record) by done.
      destruct (IH (<[key := {| count := count record + 1;
                                resetTime := resetTime record |}]> store)
                  {| count := count record + 1; resetTime := resetTime record |})
        as (r' & Hr' & Hreset & Hcount);
        [apply lookup_insert_eq | done | simpl; lia |].
      destruct (serve _ _ _ _ ts _) as [s rs]. by exists r'.
    + rewrite (rateLimit_rejected _ _ record) by done.
      destruct (IH store record) as (r' & Hr' & Hreset & Hcount); [done..|].
      destruct (serve _ _ _ _ ts _) as [s rs]. by exists r'.
Qed.

Lemma serve_app (ts us : list Z) (store : RateLimitStore) :
  serve cfg maxRequests windowMs req (ts ++ us) store
  = let '(store1, rs) := serve cfg maxRequests windowMs req ts store in
    let '(store2, rs') := serve cfg maxRequests windowMs req us store1 in
    (store2, rs ++ rs').
Proof.
  revert store. induction ts as [|t ts IH]; intros store; simpl.
  - by destruct (serve _ _ _ _ us store).
  - destruct (rateLimit _ _ _ _ t store) as [s1 r].
    rewrite IH.
    destruct (serve _ _ _ _ ts s1) as [s2 rs].
    by destruct (serve _ _ _ _ us s2).
Qed.

(** One step keeps every stored count within the maximum. *)
Lemma rateLimit_counts_bounded (now : Z) (store : RateLimitStore) :
  1 ≤ maxRequests →
  counts_bounded maxRequests store →
  counts_bounded maxRequests (rateLimit cfg maxRequests windowMs req now store).1.
Proof.
  intros Hmax Hb. unfold rateLimit.
  destruct (negb _); [done|]. simpl.
  destruct (store !! client_key req) as [record|] eqn:Hk.
  - destruct (Z.gtb_spec now (resetTime record)).
    + intros k r. simpl. rewrite lookup_insert. case_decide; [|by apply Hb].
      intros [= <-]. simpl. lia.
    + destruct (Z.geb_spec (count record) maxRequests); [done|].
      intros k r. simpl. rewrite lookup_insert. case_decide; [|by apply Hb].
      intros [= <-]. simpl. specialize (Hb _ _ Hk). lia.
  - intros k r. simpl. rewrite lookup_insert. case_decide; [|by apply Hb].
    intros [= <-]. simpl. lia.
Qed.

End rate_limiter.

(** One limiter instance writing alone to the store, with
    [maxRequests ≥ 1], and a client whose request at [t0] opens a window (no
    record yet, or the stored window has passed): the first [maxRequests]
    requests inside the window are allowed and the next one inside it is
    rejected with a positive [retryAfter] of [ceil((resetTime - now) / 1000)];
    however many requests arrive inside the window the stored count stays
    within [maxRequests] and the window stays where it is; and a request
    after [resetTime] is allowed and starts a fresh window. *)
Lemma rateLimit_alone (cfg : Cfg.t) (maxRequests windowMs : Z)
    (req : Request) (store : RateLimitStore) (t0 : Z) :
  Cfg.enableRateLimiting (Cfg.features cfg) = true →
  1 ≤ maxRequests →
  (store !! client_key req = None
   ∨ ∃ record, store !! client_key req = Some record ∧ t0 > resetTime record) →
  let key := client_key req in
  let inside t := t < t0 + windowMs in
  (∀ ts t, length ts = Z.to_nat (maxRequests - 1) → Forall inside ts → inside t →
     serve cfg maxRequests windowMs req (t0 :: ts ++ [t]) store
     = (<[key := {| count := maxRequests; resetTime := t0 + windowMs |}]> store,
        replicate (Z.to_nat maxRequests) (MwNext req)
        ++ [MwRespond (rate_limit_exceeded (ceil_div (t0 + windowMs - t) 1000))])
     ∧ 0 < ceil_div (t0 + windowMs - t) 1000)
  ∧ (∀ ts, Forall inside ts →
     ∃ record, (serve cfg maxRequests windowMs req (t0 :: ts) store).1 !! key = Some record
               ∧ resetTime record = t0 + windowMs
               ∧ 1 ≤ count record ≤ maxRequests)
  ∧ (∀ ts t, Forall inside ts → t > t0 + windowMs →
     let store1 := (serve cfg maxRequests windowMs req (t0 :: ts) store).1 in
     rateLimit cfg maxRequests windowMs req t store1
     = (<[key := {| count := 1; resetTime := t + windowMs |}]> store1, MwNext req)).
Proof.
  intros Hen Hmax Hopen key inside.
  assert (Hfirst : rateLimit cfg maxRequests windowMs req t0 store
                   = (<[key := {| count := 1; resetTime := t0 + windowMs |}]> store,
                      MwNext req)).
  { destruct Hopen as [Hnone | (record & Hsome & Hpast)].
    - by apply rateLimit_first.
    - by eapply rateLimit_expired. }
  assert (Hweak : ∀ ts, Forall inside ts → Forall (λ t, t ≤ t0 + windowMs) ts).
  { intros ts Hts. eapply Forall_impl; [exact Hts|]. unfold inside. intros; lia. }
  split; [|split].
  - intros ts t Hlen Hts Ht. split; [|apply ceil_div_pos; unfold inside in Ht; lia].
    change (t0 :: ts ++ [t]) with ((t0 :: ts) ++ [t]).
    rewrite serve_app. cbn [serve]. rewrite Hfirst.
    erewrite serve_allowed;
      [| done | apply lookup_insert_eq | by apply Hweak | simpl; lia].
    cbn [count resetTime].
    erewrite rateLimit_rejected;
      [| done | apply lookup_insert_eq | unfold inside in Ht; simpl; lia | simpl; lia].
    cbn [count resetTime]. rewrite insert_insert_eq.
    f_equal.
    + do 2 f_equal. lia.
    + change (MwNext req :: replicate (length ts) (MwNext req))
        with (replicate (S (length ts)) (MwNext req)).
      do 2 f_equal. lia.
  - intros ts Hts. cbn [serve]. rewrite Hfirst.
    destruct (serve_bounded cfg maxRequests windowMs req Hen ts
                (<[key := {| count := 1; resetTime := t0 + windowMs |}]> store)
                {| count := 1; resetTime := t0 + windowMs |})
      as (r' & Hr' & Hreset & Hcount);
      [apply lookup_insert_eq | by apply Hweak | simpl; lia |].
    destruct (serve _ _ _ _ ts _) as [s rs]. by exists r'.
  - intros ts t Hts Ht. cbn [serve]. rewrite Hfirst.
    destruct (serve_bounded cfg maxRequests windowMs req Hen ts
                (<[key := {| count := 1; resetTime := t0 + windowMs |}]> store)
                {| count := 1; resetTime := t0 + windowMs |})
      as (r' & Hr' & Hreset & Hcount);
      [apply lookup_insert_eq | by apply Hweak | simpl; lia |].
    destruct (serve _ _ _ _ ts _) as [s rs]. simpl in *.
    eapply rateLimit_expired; [done | done | lia].
Qed.

(** ** Login attempt tracker: one call *)

Section login_guard.
Context (cfg : Cfg.t) (email : string).

Local Abbreviation threshold := (Cfg.maxLoginAttempts (Cfg.security cfg)).
Local Abbreviation duration := (Cfg.lockoutDuration (Cfg.security cfg)).

(** A failure, read off the record the call works on: the stored one, or a
    fresh one when the identity has none. *)
Lemma track_failure (now : Z) (la : LoginAttempts) :
  let record := default fresh_record (la !! email) in
  trackLoginAttempt cfg email false now la
  = if lock_in_force record now then
      (la, temporarily_locked (ceil_div (default 0 (lockUntil record) - now) 1000))
    else if attempts record + 1 >=? threshold then
      (<[email := {| attempts := 0; lockUntil := Some (now + duration) |}]> la,
       too_many_attempts cfg)
    else
      (<[email := {| attempts := attempts record + 1;
                     lockUntil := lockUntil record |}]> la,
       unlocked_with (threshold - (attempts record + 1))).
Proof.
  unfold trackLoginAttempt. destruct (la !! email) as [r|] eqn:Hr; simpl.
  - by rewrite Hr.
  - rewrite lookup_insert_eq. simpl.
    change (lock_in_force fresh_record now) with false. cbn iota.
    rewrite !insert_insert_eq. done.
Qed.

Lemma track_success (now : Z) (la : LoginAttempts) :
  trackLoginAttempt cfg email true now la = (delete email la, not_locked).
Proof.
  unfold trackLoginAttempt. destruct (la !! email); simpl; [done|].
  by rewrite delete_insert_eq.
Qed.

Lemma lock_in_force_carries record until now :
  carries_lock record until →
  lock_in_force record now = bool_decide (now < until).
Proof.
  intros [Hl Hne]. unfold lock_in_force, truthy_num. rewrite Hl.
  destruct (Z.eqb_spec until 0); [done|]. simpl.
  destruct (Z.ltb_spec now until).
  - by rewrite bool_decide_eq_true_2.
  - rewrite bool_decide_eq_false_2; [done | lia].
Qed.

Lemma lock_in_force_none record now :
  lockUntil record = None → lock_in_force record now = false.
Proof. intros Hl. unfold lock_in_force. by rewrite Hl. Qed.

(** A failure against a lock that is in force changes nothing. *)
Lemma track_locked (now : Z) (la : LoginAttempts) record until :
  la !! email = Some record → carries_lock record until → now < until →
  trackLoginAttempt cfg email false now la
  = (la, temporarily_locked (ceil_div (until - now) 1000)).
Proof.
  intros Hr Hc Hnow. rewrite track_failure, Hr. simpl.
  rewrite (lock_in_force_carries _ until) by done.
  rewrite bool_decide_eq_true_2 by done.
  destruct Hc as [-> _]. done.
Qed.

(** Failures below the threshold only count. *)
Lemma failures_below ts : ∀ (la : LoginAttempts) record,
  la !! email = Some record → lockUntil record = None →
  attempts record + Z.of_nat (length ts) < threshold →
  failures cfg email ts la
  = (<[email := {| attempts := attempts record + Z.of_nat (length ts);
                   lockUntil := None |}]> la,
     map (λ k : nat, unlocked_with (threshold - (attempts record + Z.of_nat k)))
         (seq 1 (length ts))).
Proof.
  induction ts as [|t ts IH]; intros la record Hr Hl Hlt.
  - simpl. rewrite Z.add_0_r, insert_id; [done|].
    rewrite Hr. destruct record; simpl in *. by subst.
  - cbn [failures length] in *.
    rewrite track_failure, Hr. simpl.
    rewrite lock_in_force_none by done.
    destruct (Z.geb_spec (attempts record + 1) threshold); [lia|].
    erewrite IH; [| apply lookup_insert_eq | done | simpl; lia].
    simpl. rewrite insert_insert_eq. f_equal.
    + do 2 f_equal. lia.
    + f_equal. rewrite <- (seq_shift _ 1), map_map.
      apply map_ext. intros k. do 2 f_equal. lia.
Qed.

(** From no record: below the threshold, the [k]-th failure stores [k]. *)
Lemma failures_from_none ts (la : LoginAttempts) :
  la !! email = None → ts ≠ [] → Z.of_nat (length ts) < threshold →
  failures cfg email ts la
  = (<[email := {| attempts := Z.of_nat (length ts); lockUntil := None |}]> la,
     map (λ k : nat, unlocked_with (threshold - Z.of_nat k)) (seq 1 (length ts))).
Proof.
  intros Hr Hne Hlt. destruct ts as [|t ts]; [done|].
  cbn [failures length] in *.
  rewrite track_failure, Hr. simpl.
  destruct (Z.geb_spec (0 + 1) threshold); [lia|].
  erewrite failures_below; [| apply lookup_insert_eq | done | simpl; lia].
  simpl. rewrite insert_insert_eq. f_equal.
  - do 2 f_equal. lia.
  - f_equal. rewrite <- (seq_shift _ 1), map_map.
    apply map_ext. intros k. do 2 f_equal. lia.
Qed.

Lemma failures_cons t ts (la : LoginAttempts) :
  failures cfg email (t :: ts) la
  = let '(la1, r) := trackLoginAttempt cfg email false t la in
    let '(la2, rs) := failures cfg email ts la1 in
    (la2, r :: rs).
Proof. reflexivity. Qed.

Lemma failures_app ts us (la : LoginAttempts) :
  failures cfg email (ts ++ us) la
  = let '(la1, rs) := failures cfg email ts la in
    let '(la2, rs') := failures cfg email us la1 in
    (la2, rs ++ rs').
Proof.
  revert la. induction ts as [|t ts IH]; intros la; cbn [failures app].
  - by destruct (failures _ _ us la).
  - destruct (trackLoginAttempt cfg email false t la) as [la1 r].
    rewrite IH.
    destruct (failures _ _ ts la1) as [la2 rs].
    by destruct (failures _ _ us la2).
Qed.

(** The failure that reaches the threshold sets the lock and clears the
    counter. *)
Lemma failures_trip ts t (la : LoginAttempts) :
  la !! email = None → Z.of_nat (length ts) = threshold - 1 →
  failures cfg email (ts ++ [t]) la
  = (<[email := {| attempts := 0; lockUntil := Some (t + duration) |}]> la,
     map (λ k : nat, unlocked_with (threshold - Z.of_nat k)) (seq 1 (length ts))
     ++ [too_many_attempts cfg]).
Proof.
  intros Hnone Hlen. rewrite failures_app.
  destruct (decide (ts = [])) as [-> | Hne].
  - cbn [failures length]. rewrite track_failure, Hnone. simpl.
    simpl in Hlen.
    destruct (Z.geb_spec (0 + 1) threshold); [done | lia].
  - rewrite failures_from_none by (done || lia).
    cbn [failures]. rewrite track_failure, lookup_insert_eq. simpl.
    destruct (Z.geb_spec (Z.of_nat (length ts) + 1) threshold); [|lia].
    by rewrite insert_insert_eq.
Qed.

End login_guard.

(** ** Login attempt tracker: the lock *)

Lemma isAccountLocked_at_no_lock email now1 now2 (la : LoginAttempts) :
  lockUntil (default fresh_record (la !! email)) = None →
  isAccountLocked_at email now1 now2 la = (la, not_locked).
Proof.
  intros Hl. unfold isAccountLocked_at.
  destruct (la !! email) as [r|]; [|done]. simpl in Hl. by rewrite Hl.
Qed.

Lemma isAccountLocked_at_in_force email now1 now2 (la : LoginAttempts) record until :
  la !! email = Some record → carries_lock record until → now1 < until →
  isAccountLocked_at email now1 now2 la
  = (la, temporarily_locked (ceil_div (until - now2) 1000)).
Proof.
  intros Hr [Hl Hne] Hnow. unfold isAccountLocked_at, truthy_num.
  rewrite Hr, Hl. simpl.
  destruct (Z.eqb_spec until 0); [done|]. simpl.
  destruct (Z.ltb_spec now1 until); [done | lia].
Qed.

Lemma isAccountLocked_at_expired email now1 now2 (la : LoginAttempts) record until :
  la !! email = Some record → carries_lock record until → until ≤ now1 →
  isAccountLocked_at email now1 now2 la = (delete email la, not_locked).
Proof.
  intros Hr [Hl Hne] Hnow. unfold isAccountLocked_at, truthy_num.
  rewrite Hr, Hl. simpl.
  destruct (Z.eqb_spec until 0); [done|]. simpl.
  destruct (Z.ltb_spec now1 until); [lia | done].
Qed.


(** C7.  For an identity whose record carries a lock: a call whose clock
    reading has reached [lockUntil] returns unlocked ([locked: false], no
    other property) and deletes the record of that identity, and nothing
    else; a call before [lockUntil] returns [locked: true] with
    [remainingSeconds = ceil((lockUntil - now) / 1000)] and the message that
    goes with it, and leaves the map as it is. *)
Theorem lock_expiry (email : string) (la : LoginAttempts)
    (record : LoginAttemptRecord) (until : Z) :
  la !! email = Some record →
  carries_lock record until →
  (∀ now, until ≤ now →
     isAccountLocked email now la = (delete email la, not_locked))
  ∧ (∀ now, now < until →
     isAccountLocked email now la
     = (la, temporarily_locked (ceil_div (until - now) 1000)))
  ∧ (∀ now1 now2, until ≤ now1 →
     isAccountLocked_at email now1 now2 la = (delete email la, not_locked))
  ∧ (∀ now1 now2, now1 < until →
     isAccountLocked_at email now1 now2 la
     = (la, temporarily_locked (ceil_div (until - now2) 1000)))
  ∧ (∀ now1 now2, until ≤ now1 →
     let out := isAccountLocked_at email now1 now2 la in
     locked out.2 = false
     ∧ remainingSeconds out.2 = None
     ∧ message out.2 = None
     ∧ out.1 !! email = None
     ∧ ∀ other, other ≠ email → out.1 !! other = la !! other)
  ∧ (∀ now1 now2, now1 < until →
     let out := isAccountLocked_at email now1 now2 la in
     let remaining := ceil_div (until - now2) 1000 in
     locked out.2 = true
     ∧ remainingSeconds out.2 = Some remaining
     ∧ message out.2
       = Some ("Account temporarily locked. Try again in "
               +:+ pretty (ceil_div remaining 60) +:+ " minutes.")%string
     ∧ out.1 = la).
Proof.
  intros Hr Hc. unfold isAccountLocked.
  split; [|split; [|split; [|split; [|split]]]].
  - intros. by eapply isAccountLocked_at_expired.
  - intros. by eapply isAccountLocked_at_in_force.
  - intros. by eapply isAccountLocked_at_expired.
  - intros. by eapply isAccountLocked_at_in_force.
  - intros now1 now2 Hnow.
    rewrite (isAccountLocked_at_expired _ _ _ _ record until) by done.
    cbn [fst snd locked remainingSeconds message not_locked].
    split; [done|]. split; [done|]. split; [done|].
    split; [apply lookup_delete_eq|].
    intros other Hne. by apply lookup_delete_ne.
  - intros now1 now2 Hnow.
    rewrite (isAccountLocked_at_in_force _ _ _ _ record until) by done.
    done.
Qed.

(** ** The login handler in front of the tracker *)

Section login_handler.
Context `{JwtCodec} `{Bcrypt} (cfg : Cfg.t) (email password : string).

Local Abbreviation threshold := (Cfg.maxLoginAttempts (Cfg.security cfg)).
Local Abbreviation duration := (Cfg.lockoutDuration (Cfg.security cfg)).

#[local] Arguments trackLoginAttempt : simpl never.

Lemma with_loginAttempts_id (st : App) : with_loginAttempts st (loginAttempts st) = st.
Proof. by destruct st. Qed.

(** The handler stops at its own [isAccountLocked] check while the lock is
    in force. *)
Lemma login_locked (now : Z) (st : App) record until :
  loginAttempts st !! email = Some record → carries_lock record until →
  now < until →
  login cfg email password now st
  = (st, account_locked (temporarily_locked (ceil_div (until - now) 1000))).
Proof.
  intros Hr Hc Hnow. unfold login, isAccountLocked.
  erewrite isAccountLocked_at_in_force by done.
  cbn. by rewrite with_loginAttempts_id.
Qed.

(** With no lock stored, a wrong password is answered from the result of
    [trackLoginAttempt], of which only [attemptsRemaining] is read. *)
Lemma login_wrong_password (now : Z) (st : App) u :
  lockUntil (default fresh_record (loginAttempts st !! email)) = None →
  user_by_email (db st) email = Some u →
  bcrypt_compare password (u_password u) = false →
  login cfg email password now st
  = (with_loginAttempts st
       (trackLoginAttempt cfg email false now (loginAttempts st)).1,
     invalid_credentials
       (trackLoginAttempt cfg email false now (loginAttempts st)).2).
Proof.
  intros Hl Hu Hpw. unfold login, isAccountLocked.
  rewrite isAccountLocked_at_no_lock by done. cbn.
  rewrite Hu, Hpw. cbn.
  by destruct (trackLoginAttempt cfg email false now (loginAttempts st)).
Qed.

(** Wrong passwords up to and including the one that reaches the threshold
    are all answered as wrong passwords. *)
Lemma logins_failures ts : ∀ (st : App) u,
  lockUntil (default fresh_record (loginAttempts st !! email)) = None →
  attempts (default fresh_record (loginAttempts st !! email))
    + Z.of_nat (length ts) ≤ threshold →
  user_by_email (db st) email = Some u →
  bcrypt_compare password (u_password u) = false →
  logins cfg email password ts st
  = (with_loginAttempts st (failures cfg email ts (loginAttempts st)).1,
     map invalid_credentials (failures cfg email ts (loginAttempts st)).2).
Proof.
  induction ts as [|t ts IH]; intros st u Hl Hle Hu Hpw.
  - simpl. by rewrite with_loginAttempts_id.
  - cbn [logins length] in *.
    rewrite (login_wrong_password t st u) by done.
    rewrite failures_cons.
    pose proof (track_failure cfg email t (loginAttempts st)) as Hstep.
    cbv zeta in Hstep. rewrite lock_in_force_none in Hstep by done.
    destruct (trackLoginAttempt cfg email false t (loginAttempts st))
      as [la1 r1] eqn:Htrack.
    cbn [fst snd].
    destruct ts as [|t' ts].
    + by destruct st.
    + fold threshold in Hstep. cbn [length] in Hle.
      destruct (Z.geb_spec
                  (attempts (default fresh_record (loginAttempts st !! email)) + 1)
                  threshold); [lia|].
      injection Hstep as -> ->.
      rewrite (IH _ u);
        [ | cbn; by rewrite lookup_insert_eq
          | cbn; rewrite lookup_insert_eq; cbn [length] in *; simpl; lia
          | done | done ].
      cbn [loginAttempts with_loginAttempts].
      destruct (failures cfg email (t' :: ts) _) as [la2 rs].
      by destruct st.
Qed.

End login_handler.

(** C1 (what the handler does).  With a threshold of at least one, an
    identity without a record and a user whose password does not match: the
    wrong-password submission that reaches the threshold is answered, like
    the ones before it, with 401 and code [INVALID_CREDENTIALS]; its body has
    no [retryAfter] and an undefined [attemptsRemaining]; the lock that the
    tracker set and reported is dropped by the handler.  The next submission
    before the lock runs out is answered 423 with code [ACCOUNT_LOCKED] and
    [retryAfter = ceil((lockUntil - now) / 1000)], and changes no state. *)
Theorem login_at_threshold `{JwtCodec} `{Bcrypt} (cfg : Cfg.t)
    (email password : string) (st : App) (u : UserRow) :
  let threshold := Cfg.maxLoginAttempts (Cfg.security cfg) in
  let duration := Cfg.lockoutDuration (Cfg.security cfg) in
  loginAttempts st !! email = None →
  user_by_email (db st) email = Some u →
  bcrypt_compare password (u_password u) = false →
  1 ≤ threshold →
  ∀ ts t, Z.of_nat (length ts) = threshold - 1 →
    let st_locked :=
      with_loginAttempts st
        (<[email := {| attempts := 0; lockUntil := Some (t + duration) |}]>
           (loginAttempts st)) in
    let last := invalid_credentials (too_many_attempts cfg) in
    logins cfg email password (ts ++ [t]) st
    = (st_locked,
       map (λ k : nat, invalid_credentials (unlocked_with (threshold - Z.of_nat k)))
           (seq 1 (length ts))
       ++ [last])
    ∧ status last = 401
    ∧ code_of last = Some (JStr "INVALID_CREDENTIALS")
    ∧ prop "retryAfter" (body last) = None
    ∧ prop "attemptsRemaining" (body last) = Some JUndefined
    ∧ ∀ now, now < t + duration → t + duration ≠ 0 →
        let answer :=
          account_locked (temporarily_locked (ceil_div (t + duration - now) 1000)) in
        login cfg email password now st_locked = (st_locked, answer)
        ∧ status answer = 423
        ∧ code_of answer = Some (JStr "ACCOUNT_LOCKED")
        ∧ prop "retryAfter" (body answer)
          = Some (JNum (ceil_div (t + duration - now) 1000)).
Proof.
  intros threshold duration Hnone Hu Hpw Hth ts t Hlen st_locked last.
  split; [|repeat split].
  - rewrite (logins_failures cfg email password _ st u);
      [ | by rewrite Hnone | rewrite Hnone, length_app; simpl; fold threshold; lia
        | done | done ].
    rewrite failures_trip by done.
    cbn [fst snd]. by rewrite map_app, map_map.
  - eapply login_locked; [apply lookup_insert_eq | done | done].
Qed.

(** ** The tracker and an existing lock *)

(** C8 as stated fails: on an identity whose lock is in force, a failed
    attempt does not follow the ordinary failure rules.  With the record
    [{attempts: 0, lockUntil: 900000}] and the clock at 1000, the rules would
    count the attempt and return unlocked; the code returns locked and leaves
    the record alone. *)
Lemma recordAttempt_no_recheck_counterexample :
  let la : LoginAttempts :=
    {[ "prof@x.edu"%string := {| attempts := 0; lockUntil := Some 900000 |} ]} in
  lock_in_force {| attempts := 0; lockUntil := Some 900000 |} 1000 = true
  ∧ locked (recordAttempt_spec config "prof@x.edu" 1000 la).2 = false
  ∧ (recordAttempt_spec config "prof@x.edu" 1000 la).1 !! "prof@x.edu"%string
    = Some {| attempts := 1; lockUntil := Some 900000 |}
  ∧ locked (trackLoginAttempt config "prof@x.edu" false 1000 la).2 = true
  ∧ (trackLoginAttempt config "prof@x.edu" false 1000 la).1 !! "prof@x.edu"%string
    = Some {| attempts := 0; lockUntil := Some 900000 |}
  ∧ trackLoginAttempt config "prof@x.edu" false 1000 la
    ≠ recordAttempt_spec config "prof@x.edu" 1000 la.
Proof.
  intros la. split; [by vm_compute|]. split; [by vm_compute|].
  split; [by vm_compute|]. split; [by vm_compute|]. split; [by vm_compute|].
  intros Heq. apply (f_equal (λ p, locked p.2)) in Heq.
  vm_compute in Heq. discriminate.
Qed.

(** C8, amended.  [trackLoginAttempt] checks the lock itself: for an identity
    whose lock is in force, a call with [success = false] returns locked with
    [remainingSeconds = ceil((lockUntil - now) / 1000)] and leaves the map,
    counter included, as it is.  The login handler also stops at its own
    [isAccountLocked] check before it looks at the password, with the same
    lock result and no change of state. *)
Theorem recordAttempt_rechecks_lock (cfg : Cfg.t) (email : string)
    (la : LoginAttempts) (record : LoginAttemptRecord) (until now : Z) :
  la !! email = Some record →
  carries_lock record until →
  now < until →
  trackLoginAttempt cfg email false now la
  = (la, temporarily_locked (ceil_div (until - now) 1000))
  ∧ ∀ (codec : JwtCodec) (hasher : Bcrypt) password (st : App),
      loginAttempts st = la →
      login cfg email password now st
      = (st, account_locked (temporarily_locked (ceil_div (until - now) 1000))).
Proof.
  intros Hr Hc Hnow. split.
  - by eapply track_locked.
  - intros codec hasher password st <-. by eapply login_locked.
Qed.

(** ** The stored counter stays below the threshold *)

Section counter_invariant.
Context (cfg : Cfg.t).
Hypothesis threshold_pos : 1 ≤ Cfg.maxLoginAttempts (Cfg.security cfg).

Lemma attempts_bounded_insert email record (la : LoginAttempts) :
  attempts_bounded cfg la →
  0 ≤ attempts record ≤ Cfg.maxLoginAttempts (Cfg.security cfg) - 1 →
  attempts_bounded cfg (<[email := record]> la).
Proof.
  intros Hb Hr who r. rewrite lookup_insert.
  case_decide; [by intros [= <-] | apply Hb].
Qed.

Lemma attempts_bounded_delete email (la : LoginAttempts) :
  attempts_bounded cfg la → attempts_bounded cfg (delete email la).
Proof.
  intros Hb who r. rewrite lookup_delete.
  case_decide; [done | apply Hb].
Qed.

Lemma attempts_bounded_default email (la : LoginAttempts) :
  attempts_bounded cfg la →
  0 ≤ attempts (default fresh_record (la !! email))
    ≤ Cfg.maxLoginAttempts (Cfg.security cfg) - 1.
Proof using threshold_pos.
  intros Hb. destruct (la !! email) as [r|] eqn:Hr; simpl.
  - by eapply Hb.
  - lia.
Qed.

Lemma trackLoginAttempt_bounded email success now (la : LoginAttempts) :
  attempts_bounded cfg la →
  attempts_bounded cfg (trackLoginAttempt cfg email success now la).1.
Proof using threshold_pos.
  intros Hb. destruct success.
  - rewrite track_success. by apply attempts_bounded_delete.
  - rewrite track_failure. cbv zeta.
    pose proof (attempts_bounded_default email la Hb) as Hr.
    destruct (lock_in_force _ now); [done|].
    destruct (Z.geb_spec (attempts (default fresh_record (la !! email)) + 1)
                (Cfg.maxLoginAttempts (Cfg.security cfg)));
      apply attempts_bounded_insert; simpl; (done || lia).
Qed.

Lemma isAccountLocked_at_bounded email now1 now2 (la : LoginAttempts) :
  attempts_bounded cfg la →
  attempts_bounded cfg (isAccountLocked_at email now1 now2 la).1.
Proof.
  intros Hb. unfold isAccountLocked_at.
  destruct (la !! email) as [r|]; [|done].
  destruct (negb _); [done|].
  destruct (_ <? _); [done|].
  by apply attempts_bounded_delete.
Qed.

Lemma cleanup_loginAttempts_bounded now (la : LoginAttempts) :
  attempts_bounded cfg la → attempts_bounded cfg (cleanup_loginAttempts now la).
Proof.
  intros Hb who r. unfold cleanup_loginAttempts.
  rewrite map_lookup_filter_Some. intros [Hr _]. by eapply Hb.
Qed.

Lemma guard_call_bounded c (la : LoginAttempts) :
  attempts_bounded cfg la → attempts_bounded cfg (guard_call cfg c la).
Proof using threshold_pos.
  destruct c; simpl.
  - apply trackLoginAttempt_bounded.
  - apply isAccountLocked_at_bounded.
  - apply cleanup_loginAttempts_bounded.
Qed.

End counter_invariant.

(** C10.  With a threshold of at least one, after any sequence of
    [trackLoginAttempt], [isAccountLocked] and clean-up calls on the map the
    module starts with, every stored record has
    [0 ≤ attempts ≤ maxLoginAttempts - 1]; the same holds from any map that
    already satisfies the bound. *)
Theorem attempts_below_threshold (cfg : Cfg.t) (calls : list GuardCall) :
  1 ≤ Cfg.maxLoginAttempts (Cfg.security cfg) →
  attempts_bounded cfg (guard_calls cfg calls ∅)
  ∧ ∀ la : LoginAttempts,
      attempts_bounded cfg la → attempts_bounded cfg (guard_calls cfg calls la).
Proof.
  intros Hth.
  assert (Hgen : ∀ la : LoginAttempts,
             attempts_bounded cfg la → attempts_bounded cfg (guard_calls cfg calls la)).
  { unfold guard_calls. induction calls as [|c calls IH]; intros la Hb; simpl.
    - done.
    - apply IH. by apply guard_call_bounded. }
  split; [|done].
  apply Hgen. intros who r. by rewrite lookup_empty.
Qed.

(** ** Token verification *)

Section verification.
Context `{JwtCodec}.

Lemma jwt_verify_expired tok secret options jwt now :
  signed_under tok secret jwt → expired_at jwt now →
  jwt_verify tok secret options now = inr TokenExpiredError.
Proof.
  intros (Ht & Hd & Hk) (exp & He & Hle). unfold jwt_verify.
  rewrite Ht, Hd, Hk, String.eqb_refl, He. simpl.
  destruct (Z.geb_spec (now / 1000) exp); [done | lia].
Qed.

Lemma jwt_verify_unchecked tok secret jwt now :
  signed_under tok secret jwt → unexpired_at jwt now →
  jwt_verify tok secret None now = inl (jwt_payload jwt).
Proof.
  intros (Ht & Hd & Hk) Hun. unfold jwt_verify.
  rewrite Ht, Hd, Hk, String.eqb_refl. simpl.
  destruct (p_exp (jwt_payload jwt)) as [exp|] eqn:He; [|done].
  specialize (Hun exp He).
  destruct (Z.geb_spec (now / 1000) exp); [lia | done].
Qed.

Lemma jwt_verify_checked tok secret o jwt now :
  signed_under tok secret jwt → unexpired_at jwt now →
  jwt_verify tok secret (Some o) now
  = if bool_decide (names jwt o) then inl (jwt_payload jwt)
    else inr JsonWebTokenError.
Proof.
  intros (Ht & Hd & Hk) Hun. unfold jwt_verify.
  rewrite Ht, Hd, Hk, String.eqb_refl. simpl.
  assert (match p_exp (jwt_payload jwt) with
          | Some exp => now / 1000 >=? exp
          | None => false
          end = false) as ->.
  { destruct (p_exp (jwt_payload jwt)) as [exp|] eqn:He; [|done].
    specialize (Hun exp He).
    destruct (Z.geb_spec (now / 1000) exp); [lia | done]. }
  unfold names.
  destruct (decide (p_aud (jwt_payload jwt) = Some (opt_audience o))) as [Ha|Ha];
    destruct (decide (p_iss (jwt_payload jwt) = Some (opt_issuer o))) as [Hi|Hi].
  - by rewrite !bool_decide_eq_true_2.
  - rewrite (bool_decide_eq_true_2 _ Ha), (bool_decide_eq_false_2 _ Hi).
    rewrite bool_decide_eq_false_2; [done | by intros [? ?]].
  - rewrite (bool_decide_eq_false_2 _ Ha). simpl.
    rewrite bool_decide_eq_false_2; [done | by intros [? ?]].
  - rewrite (bool_decide_eq_false_2 _ Ha). simpl.
    rewrite bool_decide_eq_false_2; [done | by intros [? ?]].
Qed.

End verification.

Lemma includes_role_spec allowedRoles role :
  includes_role allowedRoles role = true ↔ ∃ r, role = Some r ∧ In r allowedRoles.
Proof.
  unfold includes_role. destruct role as [r|].
  - rewrite existsb_exists. split.
    + intros (x & Hin & Heq). apply String.eqb_eq in Heq. subst. eauto.
    + intros (x & [= <-] & Hin). exists r. by rewrite String.eqb_refl.
  - split; [done | by intros (? & ? & ?)].
Qed.


(** C9.  [optionalAuth] calls [next()] on every request.  It verifies the
    signature and the expiry only, without the issuer and audience options:
    it sets [req.user] to the claims of the token, and [req.token] to the
    token, exactly for a bearer token that is signed with the access secret
    and has not expired, and passes the request on untouched for any other
    header or token.  So for a correctly signed, unexpired token whose
    issuer or audience is not the configured one, [authenticate] answers 401
    [INVALID_TOKEN] while [optionalAuth] passes the request on with the
    claims of that token as [req.user]. *)
Theorem optionalAuth_skips_issuer_audience `{JwtCodec} (cfg : Cfg.t)
    (req : Request) (now : Z) :
  (∃ req', optionalAuth cfg req now = MwNext req')
  ∧ (∀ jwt,
      has_bearer (authorization req) = true →
      signed_under (bearer_token (authorization req)) (Cfg.secret (Cfg.jwt cfg)) jwt →
      unexpired_at jwt now →
      ¬ names jwt {| opt_issuer := Cfg.issuer (Cfg.jwt cfg);
                     opt_audience := Cfg.audience (Cfg.jwt cfg) |} →
      authenticate cfg req now = MwRespond (unauthorized "Invalid token" "INVALID_TOKEN")
      ∧ optionalAuth cfg req now = MwNext (authenticated req (jwt_payload jwt)))
  ∧ (∀ jwt,
      has_bearer (authorization req) = true →
      signed_under (bearer_token (authorization req)) (Cfg.secret (Cfg.jwt cfg)) jwt →
      unexpired_at jwt now →
      ∃ req', optionalAuth cfg req now = MwNext req'
              ∧ user req' = Some (jwt_payload jwt)
              ∧ token req' = bearer_token (authorization req)
              ∧ ip req' = ip req
              ∧ remoteAddress req' = remoteAddress req
              ∧ authorization req' = authorization req)
  ∧ (∀ jwt,
      has_bearer (authorization req) = true →
      signed_under (bearer_token (authorization req)) (Cfg.secret (Cfg.jwt cfg)) jwt →
      expired_at jwt now →
      optionalAuth cfg req now = MwNext req)
  ∧ (∀ jwt,
      jwt_decode (default EmptyString (bearer_token (authorization req))) = Some jwt →
      jwt_key jwt ≠ Cfg.secret (Cfg.jwt cfg) →
      optionalAuth cfg req now = MwNext req)
  ∧ (truthy_str (bearer_token (authorization req)) = false
     ∨ jwt_decode (default EmptyString (bearer_token (authorization req))) = None →
     optionalAuth cfg req now = MwNext req)
  ∧ (has_bearer (authorization req) = false → optionalAuth cfg req now = MwNext req)
  ∧ status (unauthorized "Invalid token" "INVALID_TOKEN") = 401
  ∧ code_of (unauthorized "Invalid token" "INVALID_TOKEN") = Some (JStr "INVALID_TOKEN").
Proof.
  assert (Hattach : ∀ jwt,
            has_bearer (authorization req) = true →
            signed_under (bearer_token (authorization req))
              (Cfg.secret (Cfg.jwt cfg)) jwt →
            unexpired_at jwt now →
            optionalAuth cfg req now = MwNext (authenticated req (jwt_payload jwt))).
  { intros jwt Hb Hs Hun. unfold optionalAuth. rewrite Hb.
    by rewrite (jwt_verify_unchecked _ _ jwt) by done. }
  split; [|split; [|split; [|split; [|split; [|split; [|split; [|split]]]]]]].
  - unfold optionalAuth. destruct (has_bearer _); [|eauto].
    destruct (jwt_verify _ _ None now); eauto.
  - intros jwt Hb Hs Hun Hnames. split; [|by apply Hattach].
    unfold authenticate. rewrite Hb. simpl.
    rewrite (jwt_verify_checked _ _ _ jwt) by done.
    by rewrite bool_decide_eq_false_2.
  - intros jwt Hb Hs Hun. exists (authenticated req (jwt_payload jwt)).
    split; [by apply Hattach|]. done.
  - intros jwt Hb Hs Hexp. unfold optionalAuth. rewrite Hb.
    by rewrite (jwt_verify_expired _ _ _ jwt) by done.
  - intros jwt Hd Hk. unfold optionalAuth.
    destruct (has_bearer _); [|done].
    unfold jwt_verify. destruct (negb _); [done|]. rewrite Hd. simpl.
    destruct (String.eqb_spec (jwt_key jwt) (Cfg.secret (Cfg.jwt cfg))); [done | done].
  - intros Hbad. unfold optionalAuth.
    destruct (has_bearer _); [|done].
    unfold jwt_verify. destruct Hbad as [-> | Hd]; [done|].
    destruct (negb _); [done|]. by rewrite Hd.
  - intros Hb. unfold optionalAuth. by rewrite Hb.
  - done.
  - done.
Qed.

(** ** Refresh and logout *)


Lemma stored_after_delete_all (d : Db) (user_id : Z) (tok : string) (now : Z) :
  stored_refresh_token (delete_all_refresh_tokens d user_id) user_id tok now = None.
Proof.
  unfold stored_refresh_token, delete_all_refresh_tokens. simpl.
  destruct (find _ _) as [row|] eqn:Hfind; [|done].
  apply find_some in Hfind as [Hin Hmatch].
  apply filter_In in Hin as [_ Hkept].
  apply andb_prop in Hmatch as [Hmatch _].
  apply andb_prop in Hmatch as [Hmatch _].
  rewrite Hmatch in Hkept. discriminate.
Qed.

Lemma verifyRefreshToken_provided `{JwtCodec} cfg tok now decoded :
  verifyRefreshToken cfg tok now = Some decoded → truthy_str tok = true.
Proof.
  unfold verifyRefreshToken, jwt_verify.
  destruct (truthy_str tok); [done | discriminate].
Qed.



(** ** Limiter instances and the store *)

(** C2 (what the code does).  Every limiter instance reads and writes the one
    module-level store.  With the shipped configuration and one client: a
    request counted by the global limiter leaves a record that the limiter of
    the login route then finds; after five requests elsewhere under [/api/]
    the first login of that client is refused by the login limiter, which on
    a store of its own would let it through; and with both limiters in front
    of the login route, the third login inside the window is refused, each
    login being counted twice. *)
Theorem limiters_share_store :
  let req := client "203.0.113.7" in
  let rl := Cfg.rateLimit config in
  let global := rateLimit config (Cfg.maxRequests rl) (Cfg.windowMs rl) req in
  let auth := rateLimit config (Cfg.authMaxRequests rl) (Cfg.authWindowMs rl) req in
  (∅ : RateLimitStore) !! client_key req = None
  ∧ (global 0 ∅).1 !! client_key req = Some {| count := 1; resetTime := 900000 |}
  ∧ (auth 5 ∅).2 = MwNext req
  ∧ (auth 5 (serve config (Cfg.maxRequests rl) (Cfg.windowMs rl) req [0; 1; 2; 3; 4] ∅).1).2
    = MwRespond (rate_limit_exceeded 900)
  ∧ (login_limiters_run config req [0; 1; 2] ∅).2
    = [MwNext req; MwNext req; MwRespond (rate_limit_exceeded 900)].
Proof.
  intros req rl global auth.
  split; [done|]. split; [by vm_compute|]. split; [by vm_compute|].
  split; by vm_compute.
Qed.

(** C4 (what the code does).  The window of a limiter instance is not its
    own: every instance counts in the one record of the client.  With the
    shipped configuration and a client without a record, the limiter of the
    login route ([authMaxRequests = 5]) alone on the store lets three
    requests through; as mounted behind the global limiter, each login is
    counted twice, so the third login inside the window is refused with
    status 429, code [RATE_LIMIT_EXCEEDED] and a positive [retryAfter] of
    [ceil((resetTime - now) / 1000)], the window being the one opened by the
    global limiter.  And the stored count goes past [authMaxRequests] inside
    the window: after six requests counted by the global limiter the record
    that the login limiter finds holds 6, and the login limiter refuses. *)
Theorem rateLimit_window_as_mounted (req : Request) (store : RateLimitStore)
    (t0 t1 t2 : Z) :
  store !! client_key req = None →
  t1 ≤ t0 + 900000 →
  t2 < t0 + 900000 →
  let rl := Cfg.rateLimit config in
  let key := client_key req in
  let retryAfter := ceil_div (t0 + 900000 - t2) 1000 in
  Cfg.authMaxRequests rl = 5
  ∧ serve config (Cfg.authMaxRequests rl) (Cfg.authWindowMs rl) req [t0; t1; t2] store
    = (<[key := {| count := 3; resetTime := t0 + 3600000 |}]> store,
       [MwNext req; MwNext req; MwNext req])
  ∧ login_limiters_run config req [t0; t1; t2] store
    = (<[key := {| count := 5; resetTime := t0 + 900000 |}]> store,
       [MwNext req; MwNext req; MwRespond (rate_limit_exceeded retryAfter)])
  ∧ status (rate_limit_exceeded retryAfter) = 429
  ∧ code_of (rate_limit_exceeded retryAfter) = Some (JStr "RATE_LIMIT_EXCEEDED")
  ∧ prop "retryAfter" (body (rate_limit_exceeded retryAfter)) = Some (JNum retryAfter)
  ∧ headers (rate_limit_exceeded retryAfter) = [("Retry-After"%string, JNum retryAfter)]
  ∧ 0 < retryAfter
  ∧ ∀ ts, length ts = 5%nat → Forall (λ t, t ≤ t0 + 900000) ts →
      let store' :=
        (serve config (Cfg.maxRequests rl) (Cfg.windowMs rl) req (t0 :: ts) store).1 in
      store' !! key = Some {| count := 6; resetTime := t0 + 900000 |}
      ∧ ∀ t, t ≤ t0 + 900000 →
          rateLimit config (Cfg.authMaxRequests rl) (Cfg.authWindowMs rl) req t store'
          = (store', MwRespond (rate_limit_exceeded (ceil_div (t0 + 900000 - t) 1000))).
Proof.
  intros Hnone Ht1 Ht2 rl key retryAfter.
  assert (Hen : Cfg.enableRateLimiting (Cfg.features config) = true) by done.
  change (Cfg.authMaxRequests rl) with 5.
  change (Cfg.authWindowMs rl) with 3600000.
  change (Cfg.maxRequests rl) with 100.
  change (Cfg.windowMs rl) with 900000.
  split; [done|]. split; [|split; [|split; [|split; [|split; [|split; [|split]]]]]].
  - cbn [serve].
    rewrite (rateLimit_first config 5 3600000 req Hen t0 store Hnone).
    erewrite (rateLimit_allowed config 5 3600000 req Hen t1);
      [| apply lookup_insert_eq | simpl; lia | simpl; lia].
    rewrite insert_insert_eq. cbn [count resetTime].
    erewrite (rateLimit_allowed config 5 3600000 req Hen t2);
      [| apply lookup_insert_eq | simpl; lia | simpl; lia].
    by rewrite insert_insert_eq.
  - cbn [login_limiters_run]. unfold login_limiters.
    change (Cfg.authMaxRequests (Cfg.rateLimit config)) with 5.
    change (Cfg.authWindowMs (Cfg.rateLimit config)) with 3600000.
    change (Cfg.maxRequests (Cfg.rateLimit config)) with 100.
    change (Cfg.windowMs (Cfg.rateLimit config)) with 900000.
    rewrite (rateLimit_first config 100 900000 req Hen t0 store Hnone).
    erewrite (rateLimit_allowed config 5 3600000 req Hen t0);
      [| apply lookup_insert_eq | simpl; lia | simpl; lia].
    rewrite insert_insert_eq. cbn [count resetTime].
    erewrite (rateLimit_allowed config 100 900000 req Hen t1);
      [| apply lookup_insert_eq | simpl; lia | simpl; lia].
    rewrite insert_insert_eq. cbn [count resetTime].
    erewrite (rateLimit_allowed config 5 3600000 req Hen t1);
      [| apply lookup_insert_eq | simpl; lia | simpl; lia].
    rewrite insert_insert_eq. cbn [count resetTime].
    erewrite (rateLimit_allowed config 100 900000 req Hen t2);
      [| apply lookup_insert_eq | simpl; lia | simpl; lia].
    rewrite insert_insert_eq. cbn [count resetTime].
    erewrite (rateLimit_rejected config 5 3600000 req Hen t2);
      [| apply lookup_insert_eq | simpl; lia | simpl; lia].
    done.
  - done.
  - done.
  - done.
  - done.
  - apply ceil_div_pos; lia.
  - intros ts Hlen Hts store'. subst store'. cbn [serve].
    rewrite (rateLimit_first config 100 900000 req Hen t0 store Hnone).
    erewrite (serve_allowed config 100 900000 req Hen ts);
      [| apply lookup_insert_eq | exact Hts | simpl; lia].
    cbn [fst count resetTime]. rewrite insert_insert_eq, Hlen.
    change (1 + Z.of_nat 5) with 6.
    split; [apply lookup_insert_eq|].
    intros t Ht.
    rewrite (rateLimit_rejected config 5 3600000 req Hen t _
               {| count := 6; resetTime := t0 + 900000 |});
      [done | apply lookup_insert_eq | simpl; lia | simpl; lia].
Qed.

(** * The theorems at work on concrete requests *)

Example rateLimit_alone_two_per_second :
  serve config 2 1000 (client "203.0.113.7") [0; 400; 999] ∅
  = (<[Some "203.0.113.7"%string := {| count := 2; resetTime := 1000 |}]> ∅,
     [MwNext (client "203.0.113.7"); MwNext (client "203.0.113.7");
      MwRespond (rate_limit_exceeded 1)]).
Proof.
  pose proof (rateLimit_alone config 2 1000 (client "203.0.113.7") ∅ 0
                eq_refl ltac:(lia) (or_introl eq_refl)) as [Hrun _].
  destruct (Hrun [400] 999 eq_refl ltac:(repeat constructor; lia) ltac:(lia))
    as [Heq _].
  exact Heq.
Qed.

Lemma rateLimit_window_as_mounted_witness :
  let req := client "203.0.113.7" in
  login_limiters_run config req [0; 1000; 2000] ∅
  = (<[Some "203.0.113.7"%string := {| count := 5; resetTime := 900000 |}]> ∅,
     [MwNext req; MwNext req; MwRespond (rate_limit_exceeded 898)])
  ∧ status (rate_limit_exceeded 898) = 429
  ∧ (serve config 100 900000 req [0; 1; 2; 3; 4; 5] ∅).1 !! Some "203.0.113.7"%string
    = Some {| count := 6; resetTime := 900000 |}.
Proof.
  intros req.
  assert (H1 : 1000 ≤ 0 + 900000) by lia.
  assert (H2 : 2000 < 0 + 900000) by lia.
  pose proof (rateLimit_window_as_mounted req ∅ 0 1000 2000 eq_refl H1 H2)
    as (_ & _ & Hrun & Hstatus & _ & _ & _ & _ & Hover).
  split; [exact Hrun|]. split; [exact Hstatus|].
  assert (Hts : Forall (λ t, t ≤ 0 + 900000) [1; 2; 3; 4; 5])
    by (repeat constructor; lia).
  exact (proj1 (Hover [1; 2; 3; 4; 5] eq_refl Hts)).
Defined.


Lemma lock_expiry_witness :
  let la : LoginAttempts :=
    {[ "prof@x.edu"%string := {| attempts := 0; lockUntil := Some 900050 |} ]} in
  isAccountLocked "prof@x.edu" 900050 la = (delete "prof@x.edu"%string la, not_locked)
  ∧ isAccountLocked "prof@x.edu" 60050 la = (la, temporarily_locked 840)
  ∧ locked (isAccountLocked_at "prof@x.edu" 60050 60050 la).2 = true
  ∧ remainingSeconds (isAccountLocked_at "prof@x.edu" 60050 60050 la).2 = Some 840
  ∧ locked (isAccountLocked_at "prof@x.edu" 900050 900050 la).2 = false.
Proof.
  intros la.
  assert (Hc : carries_lock {| attempts := 0; lockUntil := Some 900050 |} 900050)
    by (split; [reflexivity | lia]).
  pose proof (lock_expiry "prof@x.edu" la _ 900050 (lookup_singleton_eq _ _) Hc)
    as (Hexpired & Hlocked & _ & _ & Hfree & Hheld).
  assert (Hearly : 60050 < 900050) by lia.
  assert (Hlate : 900050 ≤ 900050) by lia.
  split; [by apply Hexpired|]. split; [by apply (Hlocked 60050)|].
  destruct (Hheld 60050 60050 Hearly) as (Hl & Hrem & _).
  destruct (Hfree 900050 900050 Hlate) as (Hu & _).
  split; [exact Hl|]. split; [exact Hrem | exact Hu].
Defined.

Lemma recordAttempt_rechecks_lock_witness :
  let la : LoginAttempts :=
    {[ "prof@x.edu"%string := {| attempts := 0; lockUntil := Some 900050 |} ]} in
  trackLoginAttempt config "prof@x.edu" false 60050 la = (la, temporarily_locked 840).
Proof.
  intros la.
  assert (Hc : carries_lock {| attempts := 0; lockUntil := Some 900050 |} 900050)
    by (split; [reflexivity | lia]).
  assert (Hnow : 60050 < 900050) by lia.
  exact (proj1 (recordAttempt_rechecks_lock config "prof@x.edu" la _ 900050 60050
                  (lookup_singleton_eq _ _) Hc Hnow)).
Defined.

Lemma attempts_below_threshold_witness :
  attempts_bounded config
    (guard_calls config
       [Track "prof@x.edu" false 10; Track "prof@x.edu" false 20;
        Track "prof@x.edu" false 30; Track "prof@x.edu" false 40;
        Track "prof@x.edu" false 50; IsLocked "prof@x.edu" 60 60;
        Track "prof@x.edu" false 70; Cleanup 1000000;
        Track "dean@x.edu" false 1000010; Track "dean@x.edu" true 1000020] ∅).
Proof.
  assert (Hth : 1 ≤ Cfg.maxLoginAttempts (Cfg.security config)) by (simpl; lia).
  exact (proj1 (attempts_below_threshold config _ Hth)).
Defined.

Lemma login_at_threshold_witness :
  let st_locked :=
    with_loginAttempts sample_app
      (<["prof@x.edu"%string := {| attempts := 0; lockUntil := Some 900050 |}]> ∅) in
  @logins sample_codec plain_bcrypt config "prof@x.edu" "wrong"
    [10; 20; 30; 40; 50] sample_app
  = (st_locked,
     [invalid_credentials (unlocked_with 4); invalid_credentials (unlocked_with 3);
      invalid_credentials (unlocked_with 2); invalid_credentials (unlocked_with 1);
      invalid_credentials (too_many_attempts config)])
  ∧ @login sample_codec plain_bcrypt config "prof@x.edu" "wrong" 60050 st_locked
    = (st_locked, account_locked (temporarily_locked 840)).
Proof.
  intros st_locked.
  destruct (@login_at_threshold sample_codec plain_bcrypt config
              "prof@x.edu" "wrong" sample_app prof
              eq_refl eq_refl eq_refl ltac:(simpl; lia)
              [10; 20; 30; 40] 50 eq_refl)
    as (Hrun & _ & _ & _ & _ & Hnext).
  split.
  - exact Hrun.
  - exact (proj1 (Hnext 60050 ltac:(simpl; lia) ltac:(simpl; lia))).
Defined.


Lemma optionalAuth_skips_issuer_audience_witness :
  let req := bearer "at.foreign" in
  @authenticate sample_codec config req 1500000
  = MwRespond (unauthorized "Invalid token" "INVALID_TOKEN")
  ∧ @optionalAuth sample_codec config req 1500000
    = MwNext (authenticated req (jwt_payload foreign_issuer))
  ∧ (∃ req', @optionalAuth sample_codec config req 1500000 = MwNext req'
             ∧ user req' = Some (jwt_payload foreign_issuer)
             ∧ token req' = Some "at.foreign"%string)
  ∧ @optionalAuth sample_codec config req 1900000 = MwNext req.
Proof.
  intros req.
  assert (Hb : has_bearer (authorization req) = true) by (by vm_compute).
  assert (Hs : @signed_under sample_codec (bearer_token (authorization req))
                 (Cfg.secret (Cfg.jwt config)) foreign_issuer)
    by (split; [|split]; by vm_compute).
  assert (Hun : unexpired_at foreign_issuer 1500000).
  { intros exp [= <-]. by vm_compute. }
  assert (Hexp : expired_at foreign_issuer 1900000).
  { exists 1900. split; [reflexivity | by vm_compute]. }
  destruct (@optionalAuth_skips_issuer_audience sample_codec config req 1500000)
    as (_ & Hdiffer & Hattach & _).
  destruct (@optionalAuth_skips_issuer_audience sample_codec config req 1900000)
    as (_ & _ & _ & Hstale & _).
  destruct (Hdiffer foreign_issuer Hb Hs Hun) as [Hauth Hopt].
  { intros [_ Hiss]. vm_compute in Hiss. discriminate Hiss. }
  destruct (Hattach foreign_issuer Hb Hs Hun) as (req' & Hnext & Huser & Htoken & _).
  split; [exact Hauth|]. split; [exact Hopt|]. split.
  - exists req'. split; [exact Hnext|]. split; [exact Huser | exact Htoken].
  - exact (Hstale foreign_issuer Hb Hs Hexp).
Defined.


(** A login with the right password issues both tokens and stores the
    refresh token for seven days. *)
Example login_issues_tokens :
  (@login sample_codec plain_bcrypt config "prof@x.edu" "s3cret-Hash" 1000000
     sample_app).2
  = ok [("success"%string, JBool true);
        ("message"%string, JStr "Login successful");
        ("user"%string, user_json prof);
        ("accessToken"%string, JStr "at.prof");
        ("refreshToken"%string, JStr "rt.prof")]
  ∧ refresh_tokens (db logged_in_app)
    = [{| rt_user_id := 7; rt_token := "rt.prof"; rt_expires_at := 605800 |}].
Proof. split; by vm_compute. Qed.

(** Through the mounted route, wrong passwords for one identity sent from
    five client addresses: the fifth answer is still 401
    [INVALID_CREDENTIALS]; the lock shows from the sixth request on. *)
Example login_route_five_clients :
  map (λ res, (status res, code_of res))
      (@login_route_run sample_codec plain_bcrypt config "prof@x.edu" "wrong"
         [("198.51.100.1"%string, 10); ("198.51.100.2"%string, 20);
          ("198.51.100.3"%string, 30); ("198.51.100.4"%string, 40);
          ("198.51.100.5"%string, 50); ("198.51.100.6"%string, 60050)]
         sample_app).2
  = [(401, Some (JStr "INVALID_CREDENTIALS")); (401, Some (JStr "INVALID_CREDENTIALS"));
     (401, Some (JStr "INVALID_CREDENTIALS")); (401, Some (JStr "INVALID_CREDENTIALS"));
     (401, Some (JStr "INVALID_CREDENTIALS")); (423, Some (JStr "ACCOUNT_LOCKED"))].
Proof. by vm_compute. Qed.

(** From a single client address the limiters answer first: the third login
    inside the window never reaches the handler. *)
Example login_route_one_client :
  map (λ res, (status res, code_of res))
      (@login_route_run sample_codec plain_bcrypt config "prof@x.edu" "wrong"
         [("198.51.100.1"%string, 10); ("198.51.100.1"%string, 20);
          ("198.51.100.1"%string, 30)]
         sample_app).2
  = [(401, Some (JStr "INVALID_CREDENTIALS")); (401, Some (JStr "INVALID_CREDENTIALS"));
     (429, Some (JStr "RATE_LIMIT_EXCEEDED"))].
Proof. by vm_compute. Qed.

(** * Further properties of the middleware *)

(** ** Clients do not interfere *)

(** A request of one client leaves the record of every other client as it
    was, whatever the limiter answers. *)
Theorem rateLimit_other_clients (cfg : Cfg.t) (maxRequests windowMs : Z)
    (req : Request) (now : Z) (store : RateLimitStore) (other : option string) :
  other ≠ client_key req →
  (rateLimit cfg maxRequests windowMs req now store).1 !! other = store !! other.
Proof.
  intros Hne. unfold rateLimit.
  destruct (negb _); [done|].
  destruct (store !! client_key req) as [record|]; simpl.
  - destruct (_ >? _); simpl; [by rewrite lookup_insert_ne|].
    destruct (_ >=? _); simpl; [done | by rewrite lookup_insert_ne].
  - by rewrite lookup_insert_ne.
Qed.

Lemma rateLimit_other_clients_witness :
  (rateLimit config 100 900000 (client "203.0.113.7") 50
     {[ Some "198.51.100.1"%string := {| count := 3; resetTime := 1000 |} ]}).1
    !! Some "198.51.100.1"%string
  = Some {| count := 3; resetTime := 1000 |}.
Proof.
  rewrite (rateLimit_other_clients config 100 900000 (client "203.0.113.7") 50 _
             (Some "198.51.100.1"%string)).
  - apply lookup_singleton_eq.
  - discriminate.
Defined.

(** ** The periodic clean-up *)

Lemma cleanup_rateLimitStore_lookup (c : Z) (store : RateLimitStore) k :
  cleanup_rateLimitStore c store !! k
  = match store !! k with
    | Some record => if c >? resetTime record then None else Some record
    | None => None
    end.
Proof.
  unfold cleanup_rateLimitStore.
  destruct (store !! k) as [record|] eqn:Hk.
  - destruct (Z.gtb_spec c (resetTime record)).
    + apply map_lookup_filter_None. right. intros r Hr. simpl.
      rewrite Hk in Hr. injection Hr as <-. lia.
    + apply map_lookup_filter_Some. split; [done|]. simpl. lia.
  - apply map_lookup_filter_None. by left.
Qed.

(** The clean-up of the rate-limit store removes exactly the records whose
    window has passed, and a limiter cannot tell: on a request at or after
    the clean-up it gives the same answer and leaves the same record for
    that client as it would have without the clean-up. *)
Theorem cleanup_rateLimitStore_invisible (cfg : Cfg.t) (maxRequests windowMs : Z)
    (req : Request) (c now : Z) (store : RateLimitStore) :
  Cfg.enableRateLimiting (Cfg.features cfg) = true →
  c ≤ now →
  (∀ k record, cleanup_rateLimitStore c store !! k = Some record
               ↔ store !! k = Some record ∧ c ≤ resetTime record)
  ∧ (rateLimit cfg maxRequests windowMs req now (cleanup_rateLimitStore c store)).2
    = (rateLimit cfg maxRequests windowMs req now store).2
  ∧ (rateLimit cfg maxRequests windowMs req now (cleanup_rateLimitStore c store)).1
      !! client_key req
    = (rateLimit cfg maxRequests windowMs req now store).1 !! client_key req.
Proof.
  intros Hen Hc. split.
  - intros k record. rewrite cleanup_rateLimitStore_lookup.
    destruct (store !! k) as [r|]; [|split; [done | by intros [? _]]].
    destruct (Z.gtb_spec c (resetTime r)).
    + split; [done|]. intros [[= ->] ?]. lia.
    + split; [intros [= ->]; by split | by intros [? _]].
  - unfold rateLimit. rewrite Hen. simpl.
    rewrite cleanup_rateLimitStore_lookup.
    destruct (store !! client_key req) as [record|] eqn:Hk.
    + destruct (Z.gtb_spec c (resetTime record)) as [Hgone | Hkept].
      * destruct (Z.gtb_spec now (resetTime record)); [|lia]. simpl.
        by rewrite !lookup_insert_eq.
      * destruct (_ >? _); simpl; [by rewrite !lookup_insert_eq|].
        destruct (_ >=? _); simpl; [|by rewrite !lookup_insert_eq].
        split; [done|].
        rewrite cleanup_rateLimitStore_lookup, Hk.
        destruct (Z.gtb_spec c (resetTime record)); [lia | done].
    + simpl. by rewrite !lookup_insert_eq.
Qed.

Lemma cleanup_rateLimitStore_invisible_witness :
  let store : RateLimitStore :=
    {[ Some "203.0.113.7"%string := {| count := 100; resetTime := 900000 |} ]} in
  (rateLimit config 100 900000 (client "203.0.113.7") 960000
     (cleanup_rateLimitStore 950000 store)).2
  = (rateLimit config 100 900000 (client "203.0.113.7") 960000 store).2.
Proof.
  intros store.
  assert (Hc : 950000 ≤ 960000) by lia.
  exact (proj1 (proj2 (cleanup_rateLimitStore_invisible config 100 900000
                         (client "203.0.113.7") 950000 960000 store eq_refl Hc))).
Defined.

(** ** The login handler works on one record *)

Section one_record.
Context `{JwtCodec} `{Bcrypt} (cfg : Cfg.t) (email : string).

#[local] Arguments trackLoginAttempt : simpl never.
#[local] Arguments isAccountLocked_at : simpl never.

Lemma trackLoginAttempt_agree success now (la1 la2 : LoginAttempts) :
  la1 !! email = la2 !! email →
  (trackLoginAttempt cfg email success now la1).2
  = (trackLoginAttempt cfg email success now la2).2
  ∧ (trackLoginAttempt cfg email success now la1).1 !! email
    = (trackLoginAttempt cfg email success now la2).1 !! email.
Proof.
  intros Hagree. destruct success.
  - rewrite !track_success. simpl. by rewrite !lookup_delete_eq.
  - rewrite !track_failure. cbv zeta. rewrite Hagree.
    destruct (lock_in_force _ now); [done|].
    destruct (_ >=? _); simpl; by rewrite !lookup_insert_eq.
Qed.

Lemma trackLoginAttempt_frame success now (la : LoginAttempts) other :
  other ≠ email →
  (trackLoginAttempt cfg email success now la).1 !! other = la !! other.
Proof.
  intros Hne. destruct success.
  - rewrite track_success. simpl. by rewrite lookup_delete_ne.
  - rewrite track_failure. cbv zeta.
    destruct (lock_in_force _ now); [done|].
    destruct (_ >=? _); simpl; by rewrite lookup_insert_ne.
Qed.

Lemma isAccountLocked_at_agree now1 now2 (la1 la2 : LoginAttempts) :
  la1 !! email = la2 !! email →
  (isAccountLocked_at email now1 now2 la1).2
  = (isAccountLocked_at email now1 now2 la2).2
  ∧ (isAccountLocked_at email now1 now2 la1).1 !! email
    = (isAccountLocked_at email now1 now2 la2).1 !! email.
Proof.
  intros Hagree. unfold isAccountLocked_at. rewrite <- Hagree.
  destruct (la1 !! email) as [r|] eqn:Hr; [|simpl; split; congruence].
  destruct (negb _); [simpl; split; congruence|].
  destruct (_ <? _); [simpl; split; congruence|].
  simpl. by rewrite !lookup_delete_eq.
Qed.

Lemma isAccountLocked_at_frame now1 now2 (la : LoginAttempts) other :
  other ≠ email →
  (isAccountLocked_at email now1 now2 la).1 !! other = la !! other.
Proof.
  intros Hne. unfold isAccountLocked_at.
  destruct (la !! email) as [r|]; [|done].
  destruct (negb _); [done|].
  destruct (_ <? _); [done|]. simpl. by rewrite lookup_delete_ne.
Qed.

(** Two states with the same data store and the same record for the
    identity get the same answer, and end with the same record for it. *)
Lemma login_agree password now (st1 st2 : App) :
  db st1 = db st2 →
  loginAttempts st1 !! email = loginAttempts st2 !! email →
  (login cfg email password now st1).2 = (login cfg email password now st2).2
  ∧ loginAttempts (login cfg email password now st1).1 !! email
    = loginAttempts (login cfg email password now st2).1 !! email
  ∧ db (login cfg email password now st1).1 = db (login cfg email password now st2).1.
Proof.
  intros Hdb Hagree. unfold login, isAccountLocked.
  destruct (isAccountLocked_at_agree now now _ _ Hagree) as [Hls Hla].
  destruct (isAccountLocked_at email now now (loginAttempts st1)) as [la1 ls1].
  destruct (isAccountLocked_at email now now (loginAttempts st2)) as [la2 ls2].
  simpl in Hls, Hla. subst ls2.
  destruct (locked ls1); [done|].
  rewrite <- Hdb.
  destruct (user_by_email (db st1) email) as [u|].
  - destruct (negb _).
    + destruct (trackLoginAttempt_agree false now _ _ Hla) as [Hr Hla'].
      destruct (trackLoginAttempt cfg email false now la1).
      destruct (trackLoginAttempt cfg email false now la2).
      simpl in *. by subst.
    + destruct (trackLoginAttempt_agree true now _ _ Hla) as [Hr Hla'].
      destruct (trackLoginAttempt cfg email true now la1).
      destruct (trackLoginAttempt cfg email true now la2).
      simpl in *. done.
  - destruct (trackLoginAttempt_agree false now _ _ Hla) as [Hr Hla'].
    destruct (trackLoginAttempt cfg email false now la1).
    destruct (trackLoginAttempt cfg email false now la2).
    simpl in *. done.
Qed.

End one_record.

(** A login for one identity, whatever its outcome, leaves the record of
    every other identity as it was: there is no lockout across identities. *)
Theorem login_other_identities `{JwtCodec} `{Bcrypt} (cfg : Cfg.t)
    (email password : string) (now : Z) (st : App) (other : string) :
  other ≠ email →
  loginAttempts (login cfg email password now st).1 !! other
  = loginAttempts st !! other.
Proof.
  intros Hne. unfold login, isAccountLocked.
  pose proof (isAccountLocked_at_frame email now now (loginAttempts st) other Hne) as Hiso.
  destruct (isAccountLocked_at email now now (loginAttempts st)) as [la ls].
  simpl in Hiso.
  destruct (locked ls); [done|].
  destruct (user_by_email (db st) email) as [u|].
  - destruct (negb _).
    + pose proof (trackLoginAttempt_frame cfg email false now la other Hne) as Ht.
      destruct (trackLoginAttempt cfg email false now la). simpl in *. congruence.
    + pose proof (trackLoginAttempt_frame cfg email true now la other Hne) as Ht.
      destruct (trackLoginAttempt cfg email true now la). simpl in *. congruence.
  - pose proof (trackLoginAttempt_frame cfg email false now la other Hne) as Ht.
    destruct (trackLoginAttempt cfg email false now la). simpl in *. congruence.
Qed.

Lemma login_other_identities_witness :
  let st :=
    with_loginAttempts sample_app
      {[ "dean@x.edu"%string := {| attempts := 4; lockUntil := None |} ]} in
  loginAttempts (@login sample_codec plain_bcrypt config "prof@x.edu" "wrong" 10 st).1
    !! "dean@x.edu"%string
  = Some {| attempts := 4; lockUntil := None |}.
Proof.
  intros st.
  rewrite (@login_other_identities sample_codec plain_bcrypt config
             "prof@x.edu" "wrong" 10 st "dean@x.edu").
  - apply lookup_singleton_eq.
  - discriminate.
Defined.

(** Once the lock of an identity has run out, the login handler does what it
    would do had the identity no record at all: the stale record is dropped
    first.  In particular the next wrong password opens a new cycle with
    [maxLoginAttempts - 1] attempts remaining. *)
Theorem login_after_expiry `{JwtCodec} `{Bcrypt} (cfg : Cfg.t)
    (email password : string) (now : Z) (st : App)
    (record : LoginAttemptRecord) (until : Z) :
  loginAttempts st !! email = Some record →
  carries_lock record until →
  until ≤ now →
  login cfg email password now st
  = login cfg email password now
      (with_loginAttempts st (delete email (loginAttempts st)))
  ∧ ∀ u, user_by_email (db st) email = Some u →
         bcrypt_compare password (u_password u) = false →
         1 < Cfg.maxLoginAttempts (Cfg.security cfg) →
         login cfg email password now st
         = (with_loginAttempts st
              (<[email := {| attempts := 1; lockUntil := None |}]> (loginAttempts st)),
            invalid_credentials
              (unlocked_with (Cfg.maxLoginAttempts (Cfg.security cfg) - 1))).
Proof.
  intros Hr Hc Hnow.
  assert (Hdrop : login cfg email password now st
                  = login cfg email password now
                      (with_loginAttempts st (delete email (loginAttempts st)))).
  { unfold login, isAccountLocked.
    rewrite (isAccountLocked_at_expired _ _ _ _ record until) by done.
    rewrite isAccountLocked_at_no_lock
      by (simpl; by rewrite lookup_delete_eq).
    reflexivity. }
  split; [done|].
  intros u Hu Hpw Hth. rewrite Hdrop.
  rewrite (login_wrong_password cfg email password now _ u);
    [| simpl; by rewrite lookup_delete_eq | done | done ].
  cbn [loginAttempts with_loginAttempts].
  rewrite track_failure, lookup_delete_eq. simpl.
  destruct (Z.geb_spec (0 + 1) (Cfg.maxLoginAttempts (Cfg.security cfg))); [lia|].
  simpl. unfold with_loginAttempts. simpl. by rewrite insert_delete_eq.
Qed.

Lemma login_after_expiry_witness :
  let st :=
    with_loginAttempts sample_app
      {[ "prof@x.edu"%string := {| attempts := 0; lockUntil := Some 900050 |} ]} in
  (@login sample_codec plain_bcrypt config "prof@x.edu" "wrong" 900050 st).2
  = invalid_credentials (unlocked_with 4).
Proof.
  intros st.
  assert (Hc : carries_lock {| attempts := 0; lockUntil := Some 900050 |} 900050)
    by (split; [reflexivity | lia]).
  assert (Hnow : 900050 ≤ 900050) by lia.
  assert (Hth : 1 < Cfg.maxLoginAttempts (Cfg.security config)) by (simpl; lia).
  rewrite (proj2 (@login_after_expiry sample_codec plain_bcrypt config
                    "prof@x.edu" "wrong" 900050 st _ 900050
                    (lookup_singleton_eq _ _) Hc Hnow) prof eq_refl eq_refl Hth).
  reflexivity.
Defined.

Lemma cleanup_loginAttempts_lookup (c : Z) (la : LoginAttempts) k :
  cleanup_loginAttempts c la !! k
  = match la !! k with
    | Some record =>
        if truthy_num (lockUntil record) && (c >? default 0 (lockUntil record))
        then None else Some record
    | None => None
    end.
Proof.
  unfold cleanup_loginAttempts.
  destruct (la !! k) as [record|] eqn:Hk.
  - destruct (truthy_num (lockUntil record)) eqn:Ht; simpl.
    + destruct (Z.gtb_spec c (default 0 (lockUntil record))).
      * apply map_lookup_filter_None. right. intros r Hr. simpl.
        rewrite Hk in Hr. injection Hr as <-. intros Hkeep. apply Hkeep.
        split; [done | lia].
      * apply map_lookup_filter_Some. split; [done|]. simpl. intros [_ ?]. lia.
    + apply map_lookup_filter_Some. split; [done|]. simpl. intros [? _]. congruence.
  - apply map_lookup_filter_None. by left.
Qed.

(** The clean-up of the login-attempts map removes exactly the records whose
    lock has run out, and the login handler cannot tell: a login at or after
    the clean-up is answered as it would have been without it, and leaves
    the same record for the identity and the same data store. *)
Theorem cleanup_loginAttempts_invisible `{JwtCodec} `{Bcrypt} (cfg : Cfg.t)
    (email password : string) (c now : Z) (st : App) :
  c ≤ now →
  let cleaned := with_loginAttempts st (cleanup_loginAttempts c (loginAttempts st)) in
  (∀ who record, loginAttempts cleaned !! who = Some record
                 ↔ loginAttempts st !! who = Some record
                   ∧ ¬ ∃ until, carries_lock record until ∧ until < c)
  ∧ (login cfg email password now cleaned).2 = (login cfg email password now st).2
  ∧ loginAttempts (login cfg email password now cleaned).1 !! email
    = loginAttempts (login cfg email password now st).1 !! email
  ∧ db (login cfg email password now cleaned).1 = db (login cfg email password now st).1.
Proof.
  intros Hc cleaned. split.
  - intros who record. unfold cleaned. cbn [loginAttempts with_loginAttempts].
    rewrite cleanup_loginAttempts_lookup.
    destruct (loginAttempts st !! who) as [r|]; [|split; [done | by intros [? _]]].
    unfold carries_lock, truthy_num.
    destruct (lockUntil r) as [t|] eqn:Ht; simpl.
    + destruct (Z.eqb_spec t 0); simpl.
      * split; [|by intros [? _]]. intros [= <-]. split; [done|].
        intros (until & [Hu Hne] & _). congruence.
      * destruct (Z.gtb_spec c t).
        -- split; [done|]. intros [[= <-] Hno]. destruct Hno. exists t.
           split; [by split | lia].
        -- split; [|by intros [? _]]. intros [= <-]. split; [done|].
           intros (until & [Hu Hne] & ?). rewrite Ht in Hu. injection Hu as <-. lia.
    + split; [|by intros [? _]]. intros [= <-]. split; [done|].
      intros (until & [Hu Hne] & _). congruence.
  - assert (Hlookup := cleanup_loginAttempts_lookup c (loginAttempts st) email).
    destruct (loginAttempts st !! email) as [r|] eqn:Hr.
    + destruct (truthy_num (lockUntil r)) eqn:Ht; simpl in Hlookup.
      * destruct (Z.gtb_spec c (default 0 (lockUntil r))) as [Hgone | Hkept].
        -- assert (Hcl : carries_lock r (default 0 (lockUntil r))).
           { unfold carries_lock, truthy_num in *.
             destruct (lockUntil r) as [t|]; [|done]. simpl.
             destruct (Z.eqb_spec t 0); [done | by split]. }
           destruct (login_after_expiry cfg email password now st r _ Hr Hcl
                       ltac:(lia)) as [-> _].
           apply login_agree; [done|].
           unfold cleaned. simpl. by rewrite Hlookup, lookup_delete_eq.
        -- apply login_agree; [done|]. unfold cleaned. simpl.
           by rewrite Hlookup, Hr.
      * apply login_agree; [done|]. unfold cleaned. simpl. by rewrite Hlookup, Hr.
    + apply login_agree; [done|]. unfold cleaned. simpl. by rewrite Hlookup, Hr.
Qed.

Lemma cleanup_loginAttempts_invisible_witness :
  let st :=
    with_loginAttempts sample_app
      {[ "prof@x.edu"%string := {| attempts := 0; lockUntil := Some 900050 |} ]} in
  (@login sample_codec plain_bcrypt config "prof@x.edu" "wrong" 960000
     (with_loginAttempts st (cleanup_loginAttempts 950000 (loginAttempts st)))).2
  = (@login sample_codec plain_bcrypt config "prof@x.edu" "wrong" 960000 st).2.
Proof.
  intros st.
  assert (Hc : 950000 ≤ 960000) by lia.
  exact (proj1 (proj2 (@cleanup_loginAttempts_invisible sample_codec plain_bcrypt
                         config "prof@x.edu" "wrong" 950000 960000 st Hc))).
Defined.

(** * Further properties of the token service *)

(** ** The bearer header *)

Lemma split_space_no_space s : no_space s = true → split_space s = [s].
Proof.
  induction s as [|c s IH]; [done|]. simpl.
  destruct (Ascii.eqb c " "); [done|]. simpl. intros Hs. by rewrite IH.
Qed.

Lemma split_space_piece a b :
  no_space a = true → split_space (a +:+ " " +:+ b) = a :: split_space b.
Proof.
  induction a as [|c a IH]; [done|]. simpl.
  destruct (Ascii.eqb c " "); [done|]. simpl. intros Ha. by rewrite IH.
Qed.

(** The header ["Bearer " + token] passes the header test for every token;
    the token read back is the token itself when it holds no space, and the
    part before the first space otherwise. *)
Theorem bearer_header_round_trip (tok : string) :
  has_bearer (Some ("Bearer " +:+ tok)%string) = true
  ∧ (no_space tok = true →
     bearer_token (Some ("Bearer " +:+ tok)%string) = Some tok)
  ∧ (∀ a b, no_space a = true → tok = (a +:+ " " +:+ b)%string →
     bearer_token (Some ("Bearer " +:+ tok)%string) = Some a).
Proof.
  split; [done|]. unfold bearer_token.
  change (default EmptyString (Some ("Bearer " +:+ tok)%string))
    with ("Bearer" +:+ " " +:+ tok)%string.
  rewrite split_space_piece by done. simpl. split.
  - intros Hs. by rewrite split_space_no_space.
  - intros a b Ha ->. by rewrite split_space_piece.
Qed.

Lemma bearer_header_round_trip_witness :
  bearer_token (Some "Bearer at.prof"%string) = Some "at.prof"%string
  ∧ bearer_token (Some "Bearer at.prof and more"%string) = Some "at.prof"%string.
Proof.
  split.
  - exact (proj1 (proj2 (bearer_header_round_trip "at.prof")) eq_refl).
  - exact (proj2 (proj2 (bearer_header_round_trip "at.prof and more"))
             "at.prof"%string "and more"%string eq_refl eq_refl).
Defined.

(** ** Tokens that the service issued *)

Section issued_tokens.
Context `{JwtCodec} (cfg : Cfg.t) (u : UserRow) (t0 : Z).

Lemma with_bearer_header req tok :
  no_space tok = true →
  has_bearer (authorization (with_bearer req tok)) = true
  ∧ bearer_token (authorization (with_bearer req tok)) = Some tok.
Proof.
  intros Hs. destruct (bearer_header_round_trip tok) as (Hb & Ht & _).
  split; [exact Hb | by apply Ht].
Qed.

Lemma on_the_wire_signed jwt :
  on_the_wire jwt → signed_under (Some (jwt_encode jwt)) (jwt_key jwt) jwt.
Proof.
  intros (Hd & Hne & _). split; [|by split].
  simpl. destruct (String.eqb_spec (jwt_encode jwt) ""); [done | done].
Qed.

End issued_tokens.

(** An access token issued for a user passes [authenticate] at every clock
    reading before its expiry, with the id, email, name and role of the user
    as [req.user], and then passes exactly the routes whose role list has the
    role of the user; from its expiry on it is answered 401
    [TOKEN_EXPIRED]. *)
Theorem access_token_round_trip `{JwtCodec} (cfg : Cfg.t) (u : UserRow)
    (t0 t1 : Z) (req : Request) (allowedRoles : list string) :
  let tok := generateAccessToken cfg u t0 in
  let claims := access_claims cfg u t0 in
  let req' := with_bearer req tok in
  on_the_wire {| jwt_payload := claims; jwt_key := Cfg.secret (Cfg.jwt cfg) |} →
  (t1 / 1000 < t0 / 1000 + Cfg.accessTokenExpiry (Cfg.jwt cfg) →
     authenticate cfg req' t1 = MwNext (authenticated req' claims)
     ∧ gate cfg allowedRoles req' t1
       = if existsb (String.eqb (u_role u)) allowedRoles
         then MwNext (authenticated req' claims)
         else MwRespond forbidden)
  ∧ (t0 / 1000 + Cfg.accessTokenExpiry (Cfg.jwt cfg) ≤ t1 / 1000 →
     authenticate cfg req' t1 = MwRespond (unauthorized "Token expired" "TOKEN_EXPIRED")).
Proof.
  intros tok claims req' Hwire. subst req'.
  pose proof (on_the_wire_signed _ Hwire) as Hsigned.
  destruct Hwire as (_ & _ & Hs).
  destruct (with_bearer_header req tok Hs) as [Hb Ht].
  split.
  - intros Hfresh.
    assert (Hauth : authenticate cfg (with_bearer req tok) t1
                    = MwNext (authenticated (with_bearer req tok) claims)).
    { unfold authenticate. rewrite Hb, Ht. simpl.
      erewrite jwt_verify_checked; [| exact Hsigned |].
      - rewrite bool_decide_eq_true_2; [done | by split].
      - intros exp [= <-]. done. }
    split; [done|]. unfold gate. rewrite Hauth. unfold authorize. simpl.
    by destruct (existsb _ _).
  - intros Hold. unfold authenticate. rewrite Hb, Ht. simpl.
    rewrite (jwt_verify_expired _ _ _ _ _ Hsigned); [done|].
    eexists. split; [reflexivity | done].
Qed.

Lemma access_token_round_trip_witness :
  let req' := with_bearer (client "203.0.113.7") "at.prof" in
  @authenticate sample_codec config req' 1899999
  = MwNext (authenticated req' (access_claims config prof 1000000))
  ∧ @gate sample_codec config ["admin"%string] req' 1899999 = MwRespond forbidden
  ∧ @authenticate sample_codec config req' 1900000
    = MwRespond (unauthorized "Token expired" "TOKEN_EXPIRED").
Proof.
  intros req'.
  assert (Hwire : @on_the_wire sample_codec
                    {| jwt_payload := access_claims config prof 1000000;
                       jwt_key := Cfg.secret (Cfg.jwt config) |})
    by (split; [|split]; by vm_compute).
  destruct (@access_token_round_trip sample_codec config prof 1000000 1899999
              (client "203.0.113.7") ["admin"%string] Hwire) as [Hfresh _].
  destruct (@access_token_round_trip sample_codec config prof 1000000 1900000
              (client "203.0.113.7") ["admin"%string] Hwire) as [_ Hold].
  destruct (Hfresh ltac:(by vm_compute)) as [Hauth Hgate].
  split; [exact Hauth|]. split; [exact Hgate|].
  apply Hold. by vm_compute.
Defined.

(** A refresh token issued for a user is accepted by [verifyRefreshToken],
    with the id of the user, at every clock reading before its expiry and
    refused from then on; [authenticate] never lets it pass as an access
    token, whatever the two secrets are. *)
Theorem refresh_token_round_trip `{JwtCodec} (cfg : Cfg.t) (u : UserRow)
    (t0 t1 : Z) (req : Request) :
  let tok := generateRefreshToken cfg u t0 in
  let claims := refresh_claims cfg u t0 in
  on_the_wire {| jwt_payload := claims; jwt_key := Cfg.refreshSecret (Cfg.jwt cfg) |} →
  (t1 / 1000 < t0 / 1000 + Cfg.refreshTokenExpiry (Cfg.jwt cfg) →
     verifyRefreshToken cfg (Some tok) t1 = Some claims)
  ∧ (t0 / 1000 + Cfg.refreshTokenExpiry (Cfg.jwt cfg) ≤ t1 / 1000 →
     verifyRefreshToken cfg (Some tok) t1 = None)
  ∧ ∃ res, authenticate cfg (with_bearer req tok) t1 = MwRespond res
           ∧ status res = 401.
Proof.
  intros tok claims Hwire.
  pose proof (on_the_wire_signed _ Hwire) as Hsigned.
  destruct Hwire as (Hd & Hne & Hs).
  split; [|split].
  - intros Hfresh. unfold verifyRefreshToken.
    rewrite (jwt_verify_unchecked _ _ _ _ Hsigned); [done|].
    intros exp [= <-]. done.
  - intros Hold. unfold verifyRefreshToken.
    rewrite (jwt_verify_expired _ _ _ _ _ Hsigned); [done|].
    eexists. split; [reflexivity | done].
  - set (j := {| jwt_payload := claims;
                 jwt_key := Cfg.refreshSecret (Cfg.jwt cfg) |}) in *.
    change tok with (jwt_encode j).
    destruct (with_bearer_header req (jwt_encode j) Hs) as [Hb Ht].
    unfold authenticate. rewrite Hb, Ht. simpl.
    unfold jwt_verify.
    destruct Hsigned as (Htruthy & _ & _). rewrite Htruthy. simpl.
    rewrite Hd. simpl.
    destruct (negb _); [by eexists|].
    destruct (_ >=? _); [by eexists|]. simpl. by eexists.
Qed.

Lemma refresh_token_round_trip_witness :
  @verifyRefreshToken sample_codec config (Some "rt.prof"%string) 1500000
  = Some (refresh_claims config prof 1000000)
  ∧ @verifyRefreshToken sample_codec config (Some "rt.prof"%string) 605800000 = None.
Proof.
  assert (Hwire : @on_the_wire sample_codec
                    {| jwt_payload := refresh_claims config prof 1000000;
                       jwt_key := Cfg.refreshSecret (Cfg.jwt config) |})
    by (split; [|split]; by vm_compute).
  destruct (@refresh_token_round_trip sample_codec config prof 1000000 1500000
              (client "203.0.113.7") Hwire) as (Hfresh & _ & _).
  destruct (@refresh_token_round_trip sample_codec config prof 1000000 605800000
              (client "203.0.113.7") Hwire) as (_ & Hold & _).
  split.
  - apply Hfresh. by vm_compute.
  - apply Hold. by vm_compute.
Defined.

(** [verifyRefreshToken] looks at the signature and the expiry only, not at
    the [type] claim: an access token is refused by the refresh route with
    401 [INVALID_REFRESH_TOKEN] when the two secrets differ, and is accepted
    by [verifyRefreshToken] as if it were a refresh token when they are the
    same. *)
Theorem access_token_at_refresh `{JwtCodec} (cfg : Cfg.t) (u : UserRow)
    (t0 t1 : Z) (st : App) :
  let tok := generateAccessToken cfg u t0 in
  let claims := access_claims cfg u t0 in
  on_the_wire {| jwt_payload := claims; jwt_key := Cfg.secret (Cfg.jwt cfg) |} →
  (Cfg.secret (Cfg.jwt cfg) ≠ Cfg.refreshSecret (Cfg.jwt cfg) →
     refresh cfg (Some tok) t1 st
     = (st, unauthorized "Invalid or expired refresh token" "INVALID_REFRESH_TOKEN"))
  ∧ (Cfg.secret (Cfg.jwt cfg) = Cfg.refreshSecret (Cfg.jwt cfg) →
     t1 / 1000 < t0 / 1000 + Cfg.accessTokenExpiry (Cfg.jwt cfg) →
     verifyRefreshToken cfg (Some tok) t1 = Some claims).
Proof.
  intros tok claims Hwire.
  pose proof (on_the_wire_signed _ Hwire) as Hsigned.
  destruct Hwire as (Hd & Hne & Hs).
  split.
  - intros Hdiff. unfold refresh.
    set (j := {| jwt_payload := claims; jwt_key := Cfg.secret (Cfg.jwt cfg) |}) in *.
    change tok with (jwt_encode j).
    destruct Hsigned as (Htruthy & _ & _).
    rewrite Htruthy. simpl.
    unfold verifyRefreshToken, jwt_verify. rewrite Htruthy. simpl.
    rewrite Hd. simpl.
    destruct (String.eqb_spec (Cfg.secret (Cfg.jwt cfg))
                (Cfg.refreshSecret (Cfg.jwt cfg))); [done | done].
  - intros Hsame Hfresh. unfold verifyRefreshToken. rewrite <- Hsame.
    rewrite (jwt_verify_unchecked _ _ _ _ Hsigned); [done|].
    intros exp [= <-]. done.
Qed.

Lemma access_token_at_refresh_witness :
  @refresh sample_codec config (Some "at.prof"%string) 1500000 logged_in_app
  = (logged_in_app,
     unauthorized "Invalid or expired refresh token" "INVALID_REFRESH_TOKEN").
Proof.
  assert (Hwire : @on_the_wire sample_codec
                    {| jwt_payload := access_claims config prof 1000000;
                       jwt_key := Cfg.secret (Cfg.jwt config) |})
    by (split; [|split]; by vm_compute).
  apply (proj1 (@access_token_at_refresh sample_codec config prof 1000000 1500000
                  logged_in_app Hwire)).
  by vm_compute.
Defined.

(** ** Login, then refresh *)


Section login_refresh.
#[local] Arguments trackLoginAttempt : simpl never.


End login_refresh.


(** * Further properties of the auth routes *)

(** ** Registration *)

Lemma user_by_email_None (d : Db) (email : string) :
  user_by_email d email = None ↔ ¬ In email (map u_email (users d)).
Proof.
  unfold user_by_email. split.
  - intros Hnone Hin. apply in_map_iff in Hin as (u & Heq & Hin).
    pose proof (find_none _ _ Hnone u Hin) as Hno. simpl in Hno.
    rewrite Heq, String.eqb_refl in Hno. discriminate.
  - intros Hnotin. destruct (find _ _) as [u|] eqn:Hfind; [|done].
    apply find_some in Hfind as [Hin Heq]. apply String.eqb_eq in Heq.
    destruct Hnotin. apply in_map_iff. eauto.
Qed.

(** Registration keeps the emails of the users table pairwise distinct and
    leaves every existing user row in place; it answers 409 exactly when the
    email is already in the table, and then changes nothing. *)
Theorem register_keeps_emails_unique `{JwtCodec} `{BcryptHash} (cfg : Cfg.t)
    (email password name role : string) (department : option string)
    (salt : string) (assigned rowid now : Z) (st : App) :
  let out :=
    register cfg email password name role department salt assigned rowid now st in
  NoDup (map u_email (users (db st))) →
  NoDup (map u_email (users (db out.1)))
  ∧ (status out.2 = 409 ↔ In email (map u_email (users (db st))))
  ∧ (status out.2 = 409 → out.1 = st)
  ∧ (∃ added, users (db out.1) = users (db st) ++ added).
Proof.
  intros out Hnodup. subst out. unfold register.
  destruct (user_by_email (db st) email) as [u|] eqn:Hu; simpl.
  - split; [done|]. split; [|split; [done | exists []; by rewrite app_nil_r]].
    split; [|done]. intros _.
    apply find_some in Hu as [Hin Heq]. apply String.eqb_eq in Heq.
    apply in_map_iff. eauto.
  - apply user_by_email_None in Hu.
    split; [|split; [|split; [done | by eexists]]].
    + rewrite map_app. simpl. apply NoDup_app. split; [done|]. split.
      * intros x Hx Hin. apply list_elem_of_In in Hx.
        apply list_elem_of_singleton in Hin. by subst.
      * apply NoDup_singleton.
    + split; [done | by intros ?].
Qed.

Lemma register_keeps_emails_unique_witness :
  NoDup (map u_email
           (users (db (@register sample_codec plain_hash config "new@x.edu"
                         "Passw0rd" "New User" "professor" None "salt" 8 0 2000000
                         sample_app).1)))
  ∧ (@register sample_codec plain_hash config "prof@x.edu" "Passw0rd" "Prof Again"
       "admin" None "salt" 8 0 2000000 sample_app).1 = sample_app.
Proof.
  assert (Hnodup : NoDup (map u_email (users (db sample_app)))).
  { simpl. apply NoDup_singleton. }
  split.
  - exact (proj1 (@register_keeps_emails_unique sample_codec plain_hash config
                    "new@x.edu" "Passw0rd" "New User" "professor" None "salt" 8 0
                    2000000 sample_app Hnodup)).
  - apply (@register_keeps_emails_unique sample_codec plain_hash config
             "prof@x.edu" "Passw0rd" "Prof Again" "admin" None "salt" 8 0
             2000000 sample_app Hnodup).
    reflexivity.
Defined.

Section register_login.
Context `{JwtCodec} `{Bcrypt} `{BcryptHash} (cfg : Cfg.t).
#[local] Arguments trackLoginAttempt : simpl never.

Lemma login_right_password email password now (st : App) u :
  lockUntil (default fresh_record (loginAttempts st !! email)) = None →
  user_by_email (db st) email = Some u →
  bcrypt_compare password (u_password u) = true →
  status (login cfg email password now st).2 = 200.
Proof.
  intros Hl Hu Hpw. unfold login, isAccountLocked.
  rewrite isAccountLocked_at_no_lock by done. cbn.
  rewrite Hu, Hpw. cbn. by rewrite track_success.
Qed.

Lemma user_by_email_added (d : Db) (row : UserRow) :
  user_by_email d (u_email row) = None →
  user_by_email (insert_user d row) (u_email row) = Some row.
Proof.
  intros Hnone. unfold user_by_email, insert_user in *. simpl.
  induction (users d) as [|u us IH]; simpl in *.
  - by rewrite String.eqb_refl.
  - destruct (String.eqb (u_email u) (u_email row)); [done | by apply IH].
Qed.

(** After a registration that went through, a login with the registered
    email and password is answered 200 and one with a password that does
    not match the stored hash is answered 401, provided the identity has no
    lock stored.  Registration does not look at the login attempts: while a
    lock set before the registration is in force, even the right password
    is answered 423. *)
Theorem register_then_login (email password name role : string)
    (department : option string) (salt : string) (assigned rowid t0 t1 : Z)
    (st : App) :
  let st1 :=
    (register cfg email password name role department salt assigned rowid t0 st).1 in
  user_by_email (db st) email = None →
  bcrypt_compare password (bcrypt_hash password salt) = true →
  status (register cfg email password name role department salt assigned rowid t0 st).2
  = 201
  ∧ loginAttempts st1 = loginAttempts st
  ∧ (lockUntil (default fresh_record (loginAttempts st !! email)) = None →
     status (login cfg email password t1 st1).2 = 200
     ∧ ∀ wrong, bcrypt_compare wrong (bcrypt_hash password salt) = false →
         status (login cfg email wrong t1 st1).2 = 401)
  ∧ (∀ record until, loginAttempts st !! email = Some record →
       carries_lock record until → t1 < until →
       status (login cfg email password t1 st1).2 = 423).
Proof.
  intros st1 Hnew Hlaw. subst st1. unfold register. rewrite Hnew.
  cbn [fst snd status].
  set (row := {| u_id := assigned; u_email := email;
                 u_password := bcrypt_hash password salt; u_name := name;
                 u_role := role; u_department := or_str department None |}).
  assert (Hfound : ∀ d' a, user_by_email
            (append_activity (insert_refresh_token (insert_user (db st) row) rowid d' t0) a)
            email = Some row).
  { intros d' a. apply (user_by_email_added (db st) row Hnew). }
  split; [done|]. split; [done|]. split.
  - intros Hl. split.
    + eapply login_right_password; [done | apply Hfound | done].
    + intros wrong Hwrong.
      erewrite login_wrong_password; [done | done | apply Hfound | done].
  - intros record until Hr Hc Hnow.
    erewrite login_locked; [done | exact Hr | done | done].
Qed.

End register_login.

Lemma register_then_login_witness :
  let st1 := (@register sample_codec plain_hash config "new@x.edu" "Passw0rd"
                "New User" "professor" None "salt" 8 0 2000000 sample_app).1 in
  status (@login sample_codec plain_bcrypt config "new@x.edu" "Passw0rd" 2000500 st1).2
  = 200
  ∧ status (@login sample_codec plain_bcrypt config "new@x.edu" "passw0rd" 2000500 st1).2
    = 401.
Proof.
  intros st1.
  destruct (@register_then_login sample_codec plain_bcrypt plain_hash config
              "new@x.edu" "Passw0rd" "New User" "professor" None "salt" 8 0
              2000000 2000500 sample_app eq_refl eq_refl)
    as (_ & _ & Hlogin & _).
  destruct (Hlogin eq_refl) as [Hok Hwrong].
  split; [exact Hok | exact (Hwrong "passw0rd"%string eq_refl)].
Defined.

(** ** Password change *)

Lemma refresh_without_row `{JwtCodec} (cfg : Cfg.t) rt now decoded (st : App) :
  verifyRefreshToken cfg (Some rt) now = Some decoded →
  stored_refresh_token (db st) (p_id decoded) rt now = None →
  refresh cfg (Some rt) now st
  = (st, unauthorized "Refresh token not found or expired" "TOKEN_NOT_FOUND").
Proof.
  intros Hv Hnone. unfold refresh.
  rewrite (verifyRefreshToken_provided _ _ _ _ Hv), Hv. simpl.
  by rewrite Hnone.
Qed.

Lemma user_by_email_updated (d : Db) (hashed : string) (id : Z) (email : string) u :
  user_by_email d email = Some u →
  user_by_email (update_password d hashed id) email
  = Some (if u_id u =? id
          then {| u_id := u_id u; u_email := u_email u; u_password := hashed;
                  u_name := u_name u; u_role := u_role u;
                  u_department := u_department u |}
          else u).
Proof.
  unfold user_by_email, update_password. simpl.
  induction (users d) as [|v vs IH]; simpl; [done|].
  destruct (String.eqb (u_email v) email) eqn:Hv.
  - intros [= <-]. destruct (u_id v =? id); simpl; by rewrite Hv.
  - intros Hfind. destruct (u_id v =? id); simpl; rewrite Hv; by apply IH.
Qed.

Section password_change.
Context `{JwtCodec} `{Bcrypt} `{BcryptHash}.

(** A password change that is answered anything but 200 (a missing field,
    no user row for the principal, a wrong current password) leaves the
    whole state as it was, the login attempts included.  One that is
    answered 200 revokes every refresh token of the principal: whatever
    token of that user [verifyRefreshToken] accepts, the refresh route
    answers 401 [TOKEN_NOT_FOUND]; it leaves the login attempts alone and
    replaces the stored hash of that user only. *)
Theorem change_password_revokes (principal : Payload)
    (currentPassword newPassword : option string) (salt : string) (st : App) :
  let out := change_password principal currentPassword newPassword salt st in
  (status out.2 ≠ 200 → out.1 = st)
  ∧ (status out.2 = 200 →
     (∀ cfg rt now decoded,
        verifyRefreshToken cfg (Some rt) now = Some decoded →
        p_id decoded = p_id principal →
        refresh cfg (Some rt) now out.1
        = (out.1, unauthorized "Refresh token not found or expired" "TOKEN_NOT_FOUND"))
     ∧ loginAttempts out.1 = loginAttempts st
     ∧ (∀ email u, user_by_email (db st) email = Some u →
          u_id u ≠ p_id principal →
          user_by_email (db out.1) email = Some u)
     ∧ (∀ email u, user_by_email (db st) email = Some u →
          u_id u = p_id principal →
          ∃ u', user_by_email (db out.1) email = Some u'
                ∧ u_password u' = bcrypt_hash (default EmptyString newPassword) salt
                ∧ u_id u' = u_id u ∧ u_email u' = u_email u
                ∧ u_name u' = u_name u ∧ u_role u' = u_role u)).
Proof.
  intros out. subst out. unfold change_password.
  destruct (negb (truthy_str currentPassword) || negb (truthy_str newPassword));
    [split; [done | intros [=]]|].
  destruct (user_by_id (db st) (p_id principal)) as [u0|];
    [|split; [done | intros [=]]].
  destruct (negb _); [split; [done | intros [=]]|].
  split; [done|]. intros _. cbn [fst snd]. split; [|split; [done|split]].
  - intros cfg rt now decoded Hv Hid.
    apply (refresh_without_row cfg rt now decoded); [done|].
    cbn [db with_db]. rewrite Hid. apply stored_after_delete_all.
  - intros email u Hu Hid. cbn [db with_db].
    change (user_by_email (delete_all_refresh_tokens ?d ?i) email)
      with (user_by_email d email).
    rewrite (user_by_email_updated _ _ _ _ u Hu).
    destruct (Z.eqb_spec (u_id u) (p_id principal)); [done | done].
  - intros email u Hu Hid. cbn [db with_db].
    change (user_by_email (delete_all_refresh_tokens ?d ?i) email)
      with (user_by_email d email).
    rewrite (user_by_email_updated _ _ _ _ u Hu).
    rewrite Hid, Z.eqb_refl. by eexists.
Qed.

End password_change.

Lemma change_password_revokes_witness :
  let out := @change_password plain_bcrypt plain_hash (jwt_payload prof_access)
               (Some "s3cret-Hash"%string) (Some "N3w-Passw0rd"%string) "salt"
               logged_in_app in
  status out.2 = 200
  ∧ @refresh sample_codec config (Some "rt.prof"%string) 1500000 out.1
    = (out.1, unauthorized "Refresh token not found or expired" "TOKEN_NOT_FOUND")
  ∧ (@change_password plain_bcrypt plain_hash (jwt_payload prof_access)
       (Some "guess"%string) (Some "N3w-Passw0rd"%string) "salt" logged_in_app).1
    = logged_in_app.
Proof.
  intros out.
  assert (Hok : status out.2 = 200) by (by vm_compute).
  split; [exact Hok|]. split.
  - destruct (@change_password_revokes sample_codec plain_bcrypt plain_hash
                (jwt_payload prof_access) (Some "s3cret-Hash"%string)
                (Some "N3w-Passw0rd"%string) "salt" logged_in_app) as [_ Hdone].
    destruct (Hdone Hok) as (Hrevoked & _).
    apply (Hrevoked config "rt.prof"%string 1500000 (jwt_payload prof_refresh)).
    + by vm_compute.
    + reflexivity.
  - apply (@change_password_revokes sample_codec plain_bcrypt plain_hash
             (jwt_payload prof_access) (Some "guess"%string)
             (Some "N3w-Passw0rd"%string) "salt" logged_in_app).
    by vm_compute.
Defined.

Lemma length_string_of_list_ascii (l : list ascii) :
  String.length (string_of_list_ascii l) = length l.
Proof. induction l as [|c l IH]; [done|]. simpl. by rewrite IH. Qed.

Lemma sanitizeString_length (str : string) :
  Z.of_nat (String.length (sanitizeString str)) ≤ 10000.
Proof.
  unfold sanitizeString. rewrite length_string_of_list_ascii, length_take. lia.
Qed.

(** A sanitised password that is not empty passes the checks of the login
    schema. *)
Lemma check_password_sanitized (typed : string) :
  sanitizeString typed ≠ EmptyString →
  check_password (sanitizeString typed) = [].
Proof.
  intros Hne. unfold check_password, validators_required.
  destruct (String.eqb_spec (sanitizeString typed) ""); [done|]. simpl.
  pose proof (sanitizeString_length typed).
  destruct (sanitizeString typed) as [|c rest]; [done|].
  destruct (Z.ltb_spec (Z.of_nat (String.length (String c rest))) 1);
    [simpl in *; lia|].
  destruct (Z.gtb_spec (Z.of_nat (String.length (String c rest))) 10000);
    [lia | done].
Qed.

Lemma check_email_valid (value : string) :
  validators_email value = true → check_email value = [].
Proof.
  intros Hv. unfold check_email, validators_required.
  destruct (String.eqb_spec value ""); [by subst|]. simpl. by rewrite Hv.
Qed.

Section password_change_login.
Context `{JwtCodec} `{Bcrypt} `{BcryptHash} (cfg : Cfg.t).

(** After a password change that went through, for a user whose row is the
    one found under its email and whose identity has no lock stored: the
    login handler answers 200 to a password that matches the new hash and
    401 to any other, the old one included.  The login route hands the
    handler the sanitised password, while the change stored the hash of the
    password as it came: a login that names the user and carries a password
    that is not empty once sanitised is answered 200 or 401 as the sanitised
    password matches the new hash or not.  So the new password itself logs
    in when sanitising leaves it as it is. *)
Theorem change_password_then_login (principal : Payload) (u : UserRow)
    (current new : string) (salt : string) (now : Z) (st : App) :
  let st1 := (change_password principal (Some current) (Some new) salt st).1 in
  let hash := bcrypt_hash new salt in
  current ≠ EmptyString → new ≠ EmptyString →
  user_by_id (db st) (p_id principal) = Some u →
  user_by_email (db st) (u_email u) = Some u →
  bcrypt_compare current (u_password u) = true →
  lockUntil (default fresh_record (loginAttempts st !! u_email u)) = None →
  status (change_password principal (Some current) (Some new) salt st).2 = 200
  ∧ (∀ password,
       status (login cfg (u_email u) password now st1).2
       = if bcrypt_compare password hash then 200 else 401)
  ∧ (∀ email typed,
       sanitizeString email = u_email u →
       validators_email (u_email u) = true →
       sanitizeString typed ≠ EmptyString →
       ∃ res, (login_validated cfg email typed now st1).2 = inr res
              ∧ status res
                = if bcrypt_compare (sanitizeString typed) hash then 200 else 401)
  ∧ (∀ email,
       sanitizeString email = u_email u →
       validators_email (u_email u) = true →
       sanitizeString new = new →
       bcrypt_compare new hash = true →
       ∃ res, (login_validated cfg email new now st1).2 = inr res
              ∧ status res = 200).
Proof.
  intros st1 hash Hcur Hnew Hid Hemail Hpw Hl.
  assert (Hu_id : u_id u = p_id principal).
  { unfold user_by_id in Hid. apply find_some in Hid as [_ Heq]. lia. }
  assert (Hrun : change_password principal (Some current) (Some new) salt st
    = (with_db st (delete_all_refresh_tokens
                     (update_password (db st) (bcrypt_hash new salt) (p_id principal))
                     (p_id principal)),
       ok [("success"%string, JBool true);
           ("message"%string, JStr "Password changed successfully")])).
  { unfold change_password. simpl.
    destruct (String.eqb_spec current ""); [done|].
    destruct (String.eqb_spec new ""); [done|]. simpl.
    by rewrite Hid, Hpw. }
  subst st1. rewrite Hrun. cbn [fst snd].
  set (st1 := with_db st _).
  set (u' := {| u_id := u_id u; u_email := u_email u;
                u_password := bcrypt_hash new salt; u_name := u_name u;
                u_role := u_role u; u_department := u_department u |}).
  assert (Hfound : user_by_email (db st1) (u_email u) = Some u').
  { subst st1. cbn [db with_db].
    change (user_by_email (delete_all_refresh_tokens ?d ?i) (u_email u))
      with (user_by_email d (u_email u)).
    rewrite (user_by_email_updated _ _ _ _ u Hemail).
    destruct (Z.eqb_spec (u_id u) (p_id principal)); [done | lia]. }
  assert (Hl1 : lockUntil (default fresh_record (loginAttempts st1 !! u_email u))
                = None) by done.
  assert (Hhandler : ∀ password,
            status (login cfg (u_email u) password now st1).2
            = if bcrypt_compare password hash then 200 else 401).
  { intros password. destruct (bcrypt_compare password hash) eqn:Hc.
    - eapply login_right_password; [exact Hl1 | exact Hfound | exact Hc].
    - erewrite login_wrong_password; [done | exact Hl1 | exact Hfound | exact Hc]. }
  assert (Hroute : ∀ email typed,
            sanitizeString email = u_email u →
            validators_email (u_email u) = true →
            sanitizeString typed ≠ EmptyString →
            ∃ res, (login_validated cfg email typed now st1).2 = inr res
                   ∧ status res
                     = if bcrypt_compare (sanitizeString typed) hash
                       then 200 else 401).
  { intros email typed He Hv Hne. unfold login_validated, validate_login.
    rewrite He, (check_email_valid _ Hv), (check_password_sanitized _ Hne).
    cbn [app]. specialize (Hhandler (sanitizeString typed)).
    destruct (login cfg (u_email u) (sanitizeString typed) now st1) as [st2 res].
    by exists res. }
  split; [done|]. split; [exact Hhandler|]. split; [exact Hroute|].
  intros email He Hv Hclean Hlaw.
  destruct (Hroute email new He Hv) as (res & Hres & Hstatus).
  { by rewrite Hclean. }
  exists res. split; [exact Hres|].
  by rewrite Hstatus, Hclean, Hlaw.
Qed.

End password_change_login.

Lemma change_password_then_login_witness :
  let st1 := (@change_password plain_bcrypt plain_hash (jwt_payload prof_access)
                (Some "s3cret-Hash"%string) (Some "N3w-Passw0rd"%string) "salt"
                logged_in_app).1 in
  (∃ res, (@login_validated sample_codec plain_bcrypt config " prof@x.edu"
             "N3w-Passw0rd" 3000000 st1).2 = inr res
          ∧ status res = 200)
  ∧ status (@login sample_codec plain_bcrypt config "prof@x.edu" "s3cret-Hash"
              3000000 st1).2 = 401.
Proof.
  intros st1.
  destruct (@change_password_then_login sample_codec plain_bcrypt plain_hash config
              (jwt_payload prof_access) prof "s3cret-Hash" "N3w-Passw0rd" "salt"
              3000000 logged_in_app
              ltac:(discriminate) ltac:(discriminate)
              eq_refl eq_refl eq_refl eq_refl)
    as (_ & Hhandler & _ & Hnew).
  split.
  - exact (Hnew " prof@x.edu"%string eq_refl eq_refl eq_refl eq_refl).
  - exact (Hhandler "s3cret-Hash"%string).
Defined.

(** A new password that sanitising alters no longer logs in: the change
    stores it with its leading blank, the login route compares without. *)
Example change_password_padded :
  let st1 := (@change_password plain_bcrypt plain_hash (jwt_payload prof_access)
                (Some "s3cret-Hash"%string) (Some " N3w-Passw0rd"%string) "salt"
                logged_in_app).1 in
  validate_login "prof@x.edu" " N3w-Passw0rd" = inr ("prof@x.edu", "N3w-Passw0rd")%string
  ∧ ∃ res, (@login_validated sample_codec plain_bcrypt config "prof@x.edu"
              " N3w-Passw0rd" 3000000 st1).2 = inr res
           ∧ status res = 401.
Proof.
  intros st1. split; [by vm_compute|].
  eexists. split; [by vm_compute | done].
Qed.

(** ** What a logout leaves alone *)




(** * Further properties of the validator *)

(** ** Matching *)

Lemma lang_seq_inv a b l :
  lang (ReSeq a b) l ↔ ∃ x y, l = x ++ y ∧ lang a x ∧ lang b y.
Proof.
  split.
  - inversion 1; subst. eauto.
  - intros (x & y & -> & Ha & Hb). by constructor.
Qed.

Lemma lang_class_inv f l :
  lang (ReClass f) l ↔ ∃ c, l = [c] ∧ f c = true.
Proof.
  split.
  - inversion 1; subst. eauto.
  - intros (c & -> & Hf). by constructor.
Qed.

Lemma nullable_spec r : nullable r = true ↔ lang r [].
Proof.
  induction r as [| |f|a IHa b IHb|a IHa b IHb|a IHa]; simpl.
  - split; [done | inversion 1].
  - split; [constructor | done].
  - split; [done | inversion 1].
  - rewrite andb_true_iff, IHa, IHb, lang_seq_inv. split.
    + intros [Ha Hb]. exists [], []. done.
    + intros (x & y & Heq & Ha & Hb). symmetry in Heq.
      apply app_eq_nil in Heq as [-> ->]. done.
  - rewrite orb_true_iff, IHa, IHb. split.
    + intros [Ha | Hb]; [by apply lang_alt_l | by apply lang_alt_r].
    + inversion 1; subst; eauto.
  - split; [constructor | done].
Qed.

(** A non-empty input of a starred expression starts with a non-empty
    piece of the expression. *)
Lemma lang_star_cons_inv a c l :
  lang (ReStar a) (c :: l) →
  ∃ x y, l = x ++ y ∧ lang a (c :: x) ∧ lang (ReStar a) y.
Proof.
  intros Hstar. remember (ReStar a) as r eqn:Hr. remember (c :: l) as cl eqn:Hcl.
  revert c l Hcl.
  induction Hstar as [| | | | | |a' x y Hx _ Hy IH]; try discriminate.
  intros c l Hcl. injection Hr as ->.
  destruct x as [|c' x].
  - simpl in Hcl. by apply IH.
  - simpl in Hcl. injection Hcl as -> <-. eauto.
Qed.

Lemma derive_spec c r : ∀ l, lang (derive c r) l ↔ lang r (c :: l).
Proof.
  induction r as [| |f|a IHa b IHb|a IHa b IHb|a IHa]; intros l; simpl.
  - split; inversion 1.
  - split; inversion 1.
  - destruct (f c) eqn:Hf.
    + split.
      * inversion 1; subst. by constructor.
      * inversion 1; subst. constructor.
    + split; [inversion 1|]. inversion 1; subst. congruence.
  - assert (Hhead : lang (ReSeq (derive c a) b) l
                    ↔ ∃ x y, l = x ++ y ∧ lang a (c :: x) ∧ lang b y).
    { rewrite lang_seq_inv. by setoid_rewrite IHa. }
    assert (Hsplit : lang (ReSeq a b) (c :: l)
                     ↔ (∃ x y, l = x ++ y ∧ lang a (c :: x) ∧ lang b y)
                       ∨ (lang a [] ∧ lang b (c :: l))).
    { rewrite lang_seq_inv. split.
      - intros (x & y & Heq & Ha & Hb). destruct x as [|c' x].
        + simpl in Heq. subst y. by right.
        + simpl in Heq. injection Heq as <- ->. left. eauto.
      - intros [(x & y & -> & Ha & Hb) | [Ha Hb]].
        + exists (c :: x), y. done.
        + exists [], (c :: l). done. }
    rewrite Hsplit. destruct (nullable a) eqn:Hn.
    + apply nullable_spec in Hn. split.
      * inversion 1; subst; [left; by apply Hhead | right; split; [done | by apply IHb]].
      * intros [Hl | [_ Hr]]; [apply lang_alt_l; by apply Hhead | apply lang_alt_r; by apply IHb].
    + rewrite Hhead. split; [by left|].
      intros [Hl | [Ha _]]; [done|]. apply nullable_spec in Ha. congruence.
  - split.
    + inversion 1; subst; [apply lang_alt_l; by apply IHa | apply lang_alt_r; by apply IHb].
    + inversion 1; subst; [apply lang_alt_l; by apply IHa | apply lang_alt_r; by apply IHb].
  - rewrite lang_seq_inv. split.
    + intros (x & y & -> & Ha & Hs). apply IHa in Ha.
      change (c :: x ++ y) with ((c :: x) ++ y). by constructor.
    + intros Hs. apply lang_star_cons_inv in Hs as (x & y & -> & Ha & Hs).
      exists x, y. split; [done|]. split; [by apply IHa | done].
Qed.

Lemma matches_spec l : ∀ r, matches r l = true ↔ lang r l.
Proof.
  induction l as [|c l IH]; intros r; simpl.
  - apply nullable_spec.
  - rewrite IH. apply derive_spec.
Qed.

Lemma lang_star_class f l : lang (ReStar (ReClass f)) l ↔ Forall (λ c, f c = true) l.
Proof.
  split.
  - intros Hs. remember (ReStar (ReClass f)) as r eqn:Hr.
    induction Hs as [| | | | | |a x y Hx _ Hy IH]; try discriminate.
    + constructor.
    + injection Hr as ->. apply Forall_app. split; [|by apply IH].
      apply lang_class_inv in Hx as (c & -> & Hf). by constructor.
  - induction 1 as [|c l Hc Hl IH]; [constructor|].
    change (c :: l) with ([c] ++ l). constructor; [by constructor | done].
Qed.

Lemma lang_plus_class f l :
  lang (RePlus (ReClass f)) l ↔ l ≠ [] ∧ Forall (λ c, f c = true) l.
Proof.
  unfold RePlus. rewrite lang_seq_inv. split.
  - intros (x & y & -> & Hx & Hy).
    apply lang_class_inv in Hx as (c & -> & Hf). apply lang_star_class in Hy.
    split; [done | by constructor].
  - intros [Hne Hall]. destruct l as [|c l]; [done|].
    apply Forall_cons in Hall as [Hc Hl].
    exists [c], l. split; [done|]. split; [by constructor | by apply lang_star_class].
Qed.

(** ** The email pattern *)

(** [validators.email] accepts a string exactly when it reads
    [local@domain.rest] with three non-empty parts free of whitespace and of
    ["@"] (the last two may hold further dots).  So an accepted email holds
    no whitespace and exactly one ["@"]. *)
Theorem validators_email_shape (value : string) :
  (validators_email value = true
   ↔ ∃ l d e, list_ascii_of_string value = l ++ "@"%char :: d ++ "."%char :: e
              ∧ email_part l ∧ email_part d ∧ email_part e)
  ∧ (validators_email value = true →
     Forall (λ c, is_whitespace c = false) (list_ascii_of_string value)
     ∧ count_occ ascii_dec (list_ascii_of_string value) "@"%char = 1%nat).
Proof.
  assert (Hshape : validators_email value = true
    ↔ ∃ l d e, list_ascii_of_string value = l ++ "@"%char :: d ++ "."%char :: e
               ∧ email_part l ∧ email_part d ∧ email_part e).
  { unfold validators_email, patterns_email, email_part.
    rewrite matches_spec. split.
    - intros Hm.
      apply lang_seq_inv in Hm as (l & r1 & -> & Hl & Hm).
      apply lang_seq_inv in Hm as (at_ & r2 & -> & Hat & Hm).
      apply lang_seq_inv in Hm as (d & r3 & -> & Hd & Hm).
      apply lang_seq_inv in Hm as (dot & e & -> & Hdot & He).
      apply lang_class_inv in Hat as (c1 & -> & Hc1).
      apply lang_class_inv in Hdot as (c2 & -> & Hc2).
      apply Ascii.eqb_eq in Hc1, Hc2. subst.
      apply lang_plus_class in Hl, Hd, He.
      exists l, d, e. done.
    - intros (l & d & e & -> & Hl & Hd & He).
      apply lang_plus_class in Hl, Hd, He.
      change (l ++ "@"%char :: d ++ "."%char :: e)
        with (l ++ ["@"%char] ++ d ++ ["."%char] ++ e).
      repeat (constructor; try done). }
  split; [done|].
  intros Hv. apply Hshape in Hv as (l & d & e & -> & [_ Hl] & [_ Hd] & [_ He]).
  assert (Hclean : ∀ x, Forall (λ c, not_space_or_at c = true) x →
                        Forall (λ c, is_whitespace c = false) x
                        ∧ count_occ ascii_dec x "@"%char = 0%nat).
  { intros x Hx. split.
    - eapply Forall_impl; [exact Hx|]. intros c Hc. unfold not_space_or_at in Hc.
      apply andb_prop in Hc as [Hc _]. by destruct (is_whitespace c).
    - apply count_occ_not_In. intros Hin.
      rewrite Forall_forall in Hx. apply list_elem_of_In in Hin.
      specialize (Hx _ Hin). unfold not_space_or_at in Hx.
      apply andb_prop in Hx as [_ Hx]. by rewrite Ascii.eqb_refl in Hx. }
  destruct (Hclean l Hl) as [Hl1 Hl2], (Hclean d Hd) as [Hd1 Hd2],
    (Hclean e He) as [He1 He2].
  split.
  - apply Forall_app. split; [done|]. constructor; [done|].
    apply Forall_app. split; [done|]. by constructor.
  - rewrite count_occ_app. simpl. rewrite count_occ_app. simpl. lia.
Qed.

Lemma validators_email_shape_witness :
  validators_email "prof@x.edu" = true
  ∧ Forall (λ c, is_whitespace c = false) (list_ascii_of_string "prof@x.edu").
Proof.
  destruct (validators_email_shape "prof@x.edu") as [Hshape Hclean].
  assert (Hok : validators_email "prof@x.edu" = true).
  { apply Hshape.
    exists (list_ascii_of_string "prof"), (list_ascii_of_string "x"),
      (list_ascii_of_string "edu").
    split; [reflexivity|].
    repeat split; try discriminate; repeat constructor. }
  split; [exact Hok | exact (proj1 (Hclean Hok))].
Defined.

(** ** Sanitizing *)

Lemma trimStart_suffix l : ∃ k, l = k ++ trimStart l.
Proof.
  induction l as [|c l [k IH]]; [by exists []|]. simpl.
  destruct (is_whitespace c).
  - exists (c :: k). simpl. by rewrite <- IH.
  - by exists [].
Qed.

Lemma trimEnd_prefix l : ∃ k, l = trimEnd l ++ k.
Proof.
  unfold trimEnd. destruct (trimStart_suffix (rev l)) as [k Hk].
  exists (rev k). rewrite <- rev_app_distr, <- Hk. by rewrite rev_involutive.
Qed.

Lemma trim_inside l : ∃ k1 k2, l = k1 ++ trim l ++ k2.
Proof.
  unfold trim. destruct (trimStart_suffix l) as [k1 H1].
  destruct (trimEnd_prefix (trimStart l)) as [k2 H2].
  exists k1, k2. by rewrite <- H2.
Qed.

Lemma strip_angles_sublist l : strip_angles l `sublist_of` l.
Proof.
  induction l as [|c l IH]; simpl; [constructor|].
  destruct (negb _); by constructor.
Qed.

Lemma head_rev (l : list ascii) : head (rev l) = last l.
Proof.
  induction l as [|c l IH]; [done|]. simpl.
  rewrite last_cons, <- IH. by destruct (rev l).
Qed.

Lemma trimStart_id l :
  default false (is_whitespace <$> head l) = false → trimStart l = l.
Proof. destruct l as [|c l]; simpl; [done|]. by intros ->. Qed.

Lemma trimEnd_id l :
  default false (is_whitespace <$> last l) = false → trimEnd l = l.
Proof.
  intros Hl. unfold trimEnd. rewrite trimStart_id; [apply rev_involutive|].
  by rewrite head_rev.
Qed.

(** [sanitizeString] only deletes characters: what it returns is the input
    with some characters left out, holds neither ["<"] nor [">"], and is at
    most 10000 long.  A string of at most that length without angle brackets
    that neither starts nor ends with whitespace is returned as it is. *)
Theorem sanitizeString_clean (str : string) :
  let input := list_ascii_of_string str in
  let output := list_ascii_of_string (sanitizeString str) in
  output `sublist_of` input
  ∧ ¬ In "<"%char output ∧ ¬ In ">"%char output
  ∧ Z.of_nat (length output) ≤ 10000
  ∧ (¬ In "<"%char input → ¬ In ">"%char input →
     default false (is_whitespace <$> head input) = false →
     default false (is_whitespace <$> last input) = false →
     Z.of_nat (length input) ≤ 10000 →
     sanitizeString str = str).
Proof.
  intros input output. subst output. unfold sanitizeString.
  rewrite list_ascii_of_string_of_list_ascii. fold input.
  assert (Hno : ∀ c, (c = "<" ∨ c = ">")%char →
                     ¬ In c (firstn (Z.to_nat 10000) (strip_angles (trim input)))).
  { intros c Hc Hin. apply list_elem_of_In, elem_of_take in Hin as (i & Hin & _).
    apply list_elem_of_lookup_2, list_elem_of_In in Hin.
    apply filter_In in Hin as [_ Hkeep].
    destruct Hc as [-> | ->]; discriminate. }
  split; [|split; [|split; [|split]]].
  - etrans; [apply sublist_take|]. etrans; [apply strip_angles_sublist|].
    destruct (trim_inside input) as (k1 & k2 & Hk). rewrite Hk at 2.
    apply sublist_inserts_l, sublist_inserts_r. done.
  - apply Hno. by left.
  - apply Hno. by right.
  - rewrite length_take. lia.
  - intros Hlt Hgt Hhead Hlast Hlen.
    unfold trim. rewrite (trimStart_id _ Hhead), (trimEnd_id _ Hlast).
    assert (Hstrip : strip_angles input = input).
    { unfold strip_angles. apply forallb_filter_id. apply forallb_forall.
      intros c Hin.
      destruct (Ascii.eqb_spec c "<"); [by subst|].
      destruct (Ascii.eqb_spec c ">"); [by subst | done]. }
    rewrite Hstrip, firstn_all2 by lia.
    apply string_of_list_ascii_of_string.
Qed.

Lemma sanitizeString_clean_witness : sanitizeString "prof@x.edu" = "prof@x.edu"%string.
Proof.
  apply (sanitizeString_clean "prof@x.edu").
  - intros Hin. simpl in Hin. repeat (destruct Hin as [Hc | Hin]; [discriminate Hc|]).
    exact Hin.
  - intros Hin. simpl in Hin. repeat (destruct Hin as [Hc | Hin]; [discriminate Hc|]).
    exact Hin.
  - reflexivity.
  - reflexivity.
  - simpl. lia.
Defined.

(** * Lockout of an email without an account *)

Section unknown_email.
Context `{JwtCodec} `{Bcrypt} (cfg : Cfg.t) (email password : string).

Local Abbreviation threshold := (Cfg.maxLoginAttempts (Cfg.security cfg)).
Local Abbreviation duration := (Cfg.lockoutDuration (Cfg.security cfg)).
Local Abbreviation refused :=
  (unauthorized "Invalid email or password" "INVALID_CREDENTIALS").

#[local] Arguments trackLoginAttempt : simpl never.

Lemma login_unknown_email (now : Z) (st : App) :
  lockUntil (default fresh_record (loginAttempts st !! email)) = None →
  user_by_email (db st) email = None →
  login cfg email password now st
  = (with_loginAttempts st
       (trackLoginAttempt cfg email false now (loginAttempts st)).1,
     refused).
Proof.
  intros Hl Hu. unfold login, isAccountLocked.
  rewrite isAccountLocked_at_no_lock by done. cbn.
  rewrite Hu.
  by destruct (trackLoginAttempt cfg email false now (loginAttempts st)).
Qed.

Lemma logins_unknown_email ts : ∀ (st : App),
  lockUntil (default fresh_record (loginAttempts st !! email)) = None →
  attempts (default fresh_record (loginAttempts st !! email))
    + Z.of_nat (length ts) ≤ threshold →
  user_by_email (db st) email = None →
  logins cfg email password ts st
  = (with_loginAttempts st (failures cfg email ts (loginAttempts st)).1,
     replicate (length ts) refused).
Proof.
  induction ts as [|t ts IH]; intros st Hl Hle Hu.
  - simpl. by rewrite with_loginAttempts_id.
  - cbn [logins length replicate] in *.
    rewrite (login_unknown_email t st) by done.
    rewrite failures_cons.
    pose proof (track_failure cfg email t (loginAttempts st)) as Hstep.
    cbv zeta in Hstep. rewrite lock_in_force_none in Hstep by done.
    destruct (trackLoginAttempt cfg email false t (loginAttempts st))
      as [la1 r1] eqn:Htrack.
    cbn [fst snd].
    destruct ts as [|t' ts].
    + by destruct st.
    + cbn [length] in Hle.
      destruct (Z.geb_spec
                  (attempts (default fresh_record (loginAttempts st !! email)) + 1)
                  threshold); [lia|].
      injection Hstep as -> ->.
      rewrite IH;
        [ | cbn; by rewrite lookup_insert_eq
          | cbn; rewrite lookup_insert_eq; cbn [length] in *; simpl; lia
          | done ].
      cbn [loginAttempts with_loginAttempts].
      destruct (failures cfg email (t' :: ts) _) as [la2 rs].
      by destruct st.
Qed.

(** The lockout is keyed by the submitted email, whether or not a user has
    it: for an email without a user row and without a record, each of
    [maxLoginAttempts] consecutive logins is answered 401
    [INVALID_CREDENTIALS] with a body that has no [attemptsRemaining]
    property, the last of them sets the lock, and further logins are
    answered 423 [ACCOUNT_LOCKED] until the lock runs out. *)
Theorem unknown_email_lockout (st : App) (ts : list Z) (t : Z) :
  let st_locked :=
    with_loginAttempts st
      (<[email := {| attempts := 0; lockUntil := Some (t + duration) |}]>
         (loginAttempts st)) in
  loginAttempts st !! email = None →
  user_by_email (db st) email = None →
  Z.of_nat (length ts) = threshold - 1 →
  logins cfg email password (ts ++ [t]) st
  = (st_locked, replicate (S (length ts)) refused)
  ∧ prop "attemptsRemaining" (body refused) = None
  ∧ ∀ now, now < t + duration → t + duration ≠ 0 →
      login cfg email password now st_locked
      = (st_locked,
         account_locked (temporarily_locked (ceil_div (t + duration - now) 1000))).
Proof.
  intros st_locked Hnone Hu Hlen. split; [|split; [done|]].
  - rewrite logins_unknown_email;
      [ | by rewrite Hnone | rewrite Hnone, length_app; simpl; lia | done ].
    rewrite failures_trip by done. cbn [fst].
    rewrite length_app. simpl. by rewrite Nat.add_1_r.
  - intros now Hnow Hne.
    eapply login_locked; [apply lookup_insert_eq | done | done].
Qed.

End unknown_email.

Lemma unknown_email_lockout_witness :
  let st_locked :=
    with_loginAttempts sample_app
      (<["nobody@x.edu"%string := {| attempts := 0; lockUntil := Some 900050 |}]> ∅) in
  @logins sample_codec plain_bcrypt config "nobody@x.edu" "guess"
    [10; 20; 30; 40; 50] sample_app
  = (st_locked,
     replicate 5 (unauthorized "Invalid email or password" "INVALID_CREDENTIALS"))
  ∧ status (@login sample_codec plain_bcrypt config "nobody@x.edu" "guess" 60050
              st_locked).2 = 423.
Proof.
  intros st_locked.
  destruct (@unknown_email_lockout sample_codec plain_bcrypt config
              "nobody@x.edu" "guess" sample_app [10; 20; 30; 40] 50
              eq_refl eq_refl eq_refl)
    as (Hrun & _ & Hnext).
  split; [exact Hrun|].
  assert (Hnow : 60050 < 50 + Cfg.lockoutDuration (Cfg.security config))
    by (simpl; lia).
  assert (Hne : 50 + Cfg.lockoutDuration (Cfg.security config) ≠ 0)
    by (simpl; lia).
  exact (f_equal (λ out : App * Response, status out.2) (Hnext 60050 Hnow Hne)).
Defined.
